(** * nlgeval: the orchestration layer of [nlgeval/__init__.py]

    A shallow embedding of the metric registry ([NLGEval.__init__],
    [NLGEval.load_scorers]), of the alignment of hypotheses and references
    into the indexed dictionaries the scorers consume, and of the four
    evaluation entry points (the two module-level functions and the two
    methods of [NLGEval]), followed by the properties of that layer.

    Python values are modelled as follows.
    - A [str] is a [string]; [str.strip] and [str.split] are written out.
    - A [set] of names is a [gset string]; a [dict] is a [gmap].
    - The external scorers ([Bleu], [Meteor], [Rouge], [Cider], [Spice]) are
      parameters: their state lives in an abstract world, [compute_score]
      and [close] are transitions of that world, and every call is recorded
      in a trace of events.
    - A raised exception is the left summand of the result. *)

From Stdlib Require Import Ascii String.
From stdpp Require Import gmap strings list fin_maps pretty.

Local Open Scope string_scope.
Local Open Scope list_scope.
Local Open Scope nat_scope.

(** ** Python strings *)

Module PyStr.

(** [str.isspace] on one character, for the code points below 256. *)
Definition isspace (c : ascii) : bool :=
  let n := nat_of_ascii c in
  (((9 <=? n) && (n <=? 13)) || ((28 <=? n) && (n <=? 32))
   || (n =? 133) || (n =? 160))%nat.

Definition is_empty (s : string) : bool :=
  match s with EmptyString => true | String _ _ => false end.

(** [s.lstrip()]: the index moves right while it reads whitespace. *)
Fixpoint lstrip_with (sp : ascii → bool) (s : string) : string :=
  match s with
  | EmptyString => EmptyString
  | String c s' => if sp c then lstrip_with sp s' else s
  end.

(** [s.rstrip()]: a character is dropped when it is whitespace and
    everything after it has been dropped. *)
Fixpoint rstrip_with (sp : ascii → bool) (s : string) : string :=
  match s with
  | EmptyString => EmptyString
  | String c s' =>
      let r := rstrip_with sp s' in
      if sp c && is_empty r then EmptyString else String c r
  end.

(** [s.strip()] with no argument. *)
Definition strip_with (sp : ascii → bool) (s : string) : string :=
  rstrip_with sp (lstrip_with sp s).

Definition strip : string → string := strip_with isspace.

(** Every character of [s] is whitespace. *)
Fixpoint all_space (sp : ascii → bool) (s : string) : bool :=
  match s with
  | EmptyString => true
  | String c s' => sp c && all_space sp s'
  end.

Definition head_is (sp : ascii → bool) (s : string) : bool :=
  match s with EmptyString => false | String c _ => sp c end.

Fixpoint last_is (sp : ascii → bool) (s : string) : bool :=
  match s with
  | EmptyString => false
  | String c EmptyString => sp c
  | String _ s' => last_is sp s'
  end.

(** [s.startswith(p)], returning what follows the prefix. *)
Fixpoint strip_prefix (p s : string) : option string :=
  match p, s with
  | EmptyString, _ => Some s
  | String a p', String b s' =>
      if decide (a = b) then strip_prefix p' s' else None
  | String _ _, EmptyString => None
  end.

(** [s.split(sep)] for a non-empty [sep]: the text is read left to right;
    at an occurrence of [sep] the current piece is closed and the
    [length sep - 1] characters that follow are skipped.  [cur] is the
    piece being read and [skip] the number of characters of a matched
    separator still to pass over. *)
Fixpoint split_go (sep : string) (skip : nat) (cur : string) (s : string)
  : list string :=
  match s with
  | EmptyString => [cur]
  | String c s' =>
      match skip with
      | S k => split_go sep k cur s'
      | O =>
          match strip_prefix sep s with
          | Some _ => cur :: split_go sep (String.length sep - 1) EmptyString s'
          | None => split_go sep 0 (cur +:+ String c EmptyString) s'
          end
      end
  end.

Definition split (sep s : string) : list string := split_go sep 0 EmptyString s.

(** [sep.join(l)]. *)
Fixpoint join (sep : string) (l : list string) : string :=
  match l with
  | [] => EmptyString
  | [x] => x
  | x :: l' => x +:+ sep +:+ join sep l'
  end.

(** [list(s)]: iterating a string yields its one-character strings. *)
Fixpoint chars (s : string) : list string :=
  match s with
  | EmptyString => []
  | String c s' => String c EmptyString :: chars s'
  end.

(** [sub in s] *)
Fixpoint contains (sub s : string) : bool :=
  match strip_prefix sub s with
  | Some _ => true
  | None =>
      match s with
      | EmptyString => false
      | String _ s' => contains sub s'
      end
  end.

End PyStr.

(** ** Scorers, descriptors, reports *)

(** The five scorer classes; [Bleu n] is the object built by [Bleu(n)]. *)
Inductive scorer : Type :=
| Bleu (n : nat)
| Meteor
| Rouge
| Cider
| Spice.

#[global] Instance scorer_eq_dec : EqDecision scorer.
Proof. solve_decision. Defined.

(** [isinstance(scorer, Meteor)] *)
Definition is_meteor (s : scorer) : bool :=
  match s with Meteor => true | _ => false end.

(** The second component of a scorer pair: a list of names or one name
    ([isinstance(method, list)] tells them apart). *)
Inductive method : Type :=
| MList (names : list string)
| MName (name : string).

#[global] Instance method_eq_dec : EqDecision method.
Proof. solve_decision. Defined.

Definition descriptor : Type := scorer * method.

(** What a descriptor declares it will report. *)
Definition declared (m : method) : list string :=
  match m with MList names => names | MName name => [name] end.

(** The first component of what [compute_score] returns: a number or a
    sequence of numbers. *)
Inductive value (num : Type) : Type :=
| VNum (x : num)
| VList (l : list num).
Arguments VNum {num} x.
Arguments VList {num} l.

(** [refs] and [hyps]: item index to list of strings. *)
Abbreviation alignment := (gmap nat (list string)).

(** The external collaborators: the scorer classes, and the files the
    module-level [compute_metrics] reads.  [compute_score] either raises
    ([inl]) or returns its aggregate ([inr]); the per-item breakdown it also
    returns is bound to [_] by every caller and is left out. *)
Class Collaborators : Type := {
  num : Type;
  exn : Type;
  world : Type;
  new_scorer : scorer → world → world;
  compute_score : scorer → alignment → alignment → world → (exn + value num) * world;
  close : scorer → world → world;
  readlines : string → option (list string);
}.

Inductive error `{Collaborators} : Type :=
| AssertionError
| TypeError
| IOError
| ScorerError (e : exn).

Inductive event `{Collaborators} : Type :=
| EvNew (s : scorer)
| EvCompute (s : scorer) (refs hyps : alignment)
| EvClose (s : scorer)
| EvPrint (name : string) (x : num).

(** A reference argument: [isinstance(ref, six.string_types)] or a sequence
    of strings. *)
Inductive pyref : Type :=
| RStr (s : string)
| RSeq (l : list string).

(** [def _strip(s): return s.strip()] *)
Definition _strip (s : string) : string := PyStr.strip s.

(** [for a in ref] *)
Definition iter_ref (ref : pyref) : list string :=
  match ref with RStr s => PyStr.chars s | RSeq l => l end.

(** ** Statements with effects *)

Section Model.
Context `{Collaborators}.

Abbreviation report := (gmap string (value num)).

(** A statement maps the world to a result or a raised error, the new
    world, and the events it produced. *)
Definition M (A : Type) : Type := world → (error + A) * world * list event.

Definition ret {A} (a : A) : M A := λ w, (inr a, w, []).

Definition bind {A B} (m : M A) (k : A → M B) : M B := λ w,
  match m w with
  | (inl e, w1, t1) => (inl e, w1, t1)
  | (inr a, w1, t1) =>
      match k a w1 with (r, w2, t2) => (r, w2, t1 ++ t2) end
  end.

Definition raise {A} (e : error) : M A := λ w, (inl e, w, []).

Definition emit (ev : event) : M unit := λ w, (inr tt, w, [ev]).

(** [assert b] *)
Definition assert_ (b : bool) : M unit :=
  if b then ret tt else raise AssertionError.

#[local] Notation "'let!' x ':=' m 'in' k" := (bind m (λ x, k))
  (at level 10, x pattern, m at level 100, k at level 200).
#[local] Notation "'run!' m 'in' k" := (bind m (λ _, k))
  (at level 10, m at level 100, k at level 200).

(** [for x in l: body], with the variables the body assigns as [s]. *)
Fixpoint for_each {A S} (l : list A) (body : A → S → M S) (s : S) : M S :=
  match l with
  | [] => ret s
  | x :: l' => let! s' := body x s in for_each l' body s'
  end.

(** Constructing a scorer object. *)
Definition new (s : scorer) : M scorer := λ w,
  (inr s, new_scorer s w, [EvNew s]).

(** [score, _ = scorer.compute_score(refs, hyps)] *)
Definition call_compute_score (s : scorer) (refs hyps : alignment)
  : M (value num) := λ w,
  match compute_score s refs hyps w with
  | (inl e, w') => (inl (ScorerError e), w', [EvCompute s refs hyps])
  | (inr v, w') => (inr v, w', [EvCompute s refs hyps])
  end.

(** [scorer.close()] *)
Definition call_close (s : scorer) : M unit := λ w,
  (inr tt, close s w, [EvClose s]).

(** [with open(path, 'r') as f: f.readlines()] *)
Definition open_readlines (path : string) : M (list string) :=
  match readlines path with
  | Some lines => ret lines
  | None => raise IOError
  end.

(** ** The registry *)

Definition valid_metrics : gset string :=
  {[ "Bleu_1"; "Bleu_2"; "Bleu_3"; "Bleu_4";
     "METEOR"; "ROUGE_L"; "CIDEr"; "SPICE" ]}.

(** ['Bleu_{}'.format(i)] *)
Definition bleu_name (i : nat) : string := "Bleu_" +:+ pretty i.

(** [range(a, b)] *)
Definition range (a b : nat) : list nat := seq a (b - a).

Record NLGEval : Type := {
  metrics_to_omit : gset string;
  scorers : list descriptor;
}.

(** The [for i in range(1, 4 + 1)] loop of [load_scorers], over the part of
    the range still to visit; it returns [self.scorers] and [omit_bleu_i].
    The first tier found in the omission set ends the loop ([break]). *)
Fixpoint load_bleu (omit : gset string) (todo : list nat)
    (scorers : list descriptor) : M (list descriptor * bool) :=
  match todo with
  | [] => ret (scorers, false)
  | i :: todo' =>
      if decide (bleu_name i ∈ omit) then
        if decide (1 < i) then
          let! b := new (Bleu (i - 1)) in
          ret (scorers ++ [(b, MList (bleu_name <$> range 1 i))], true)
        else ret (scorers, true)
      else load_bleu omit todo' scorers
  end.

(** [if name not in self.metrics_to_omit: self.scorers.append((cls(), name))] *)
Definition load_scalar (omit : gset string) (cls : scorer) (name : string)
    (scorers : list descriptor) : M (list descriptor) :=
  if decide (name ∉ omit) then
    let! s := new cls in ret (scorers ++ [(s, MName name)])
  else ret scorers.

Definition load_scorers (omit : gset string) : M (list descriptor) :=
  let! (scorers, omit_bleu_i) := load_bleu omit (range 1 (4 + 1)) [] in
  let! scorers :=
    if negb omit_bleu_i then
      let! b := new (Bleu 4) in
      ret (scorers ++ [(b, MList ["Bleu_1"; "Bleu_2"; "Bleu_3"; "Bleu_4"])])
    else ret scorers in
  let! scorers := load_scalar omit Meteor "METEOR" scorers in
  let! scorers := load_scalar omit Rouge "ROUGE_L" scorers in
  let! scorers := load_scalar omit Cider "CIDEr" scorers in
  load_scalar omit Spice "SPICE" scorers.

(** [NLGEval(metrics_to_omit)] *)
Definition NLGEval_init (metrics_to_omit : option (list string)) : M NLGEval :=
  let omit : gset string :=
    match metrics_to_omit with
    | None => ∅
    | Some l => list_to_set l
    end in
  run! assert_ (bool_decide (size (omit ∖ valid_metrics) = 0)) in
  let! scorers := load_scorers omit in
  ret {| metrics_to_omit := omit; scorers := scorers |}.

(** ** Alignment *)

(** [zip] applied to the unpacked [ls]: item [i] gathers position [i] of every list, up to the end
    of the shortest one; no list at all gives no item. *)
Fixpoint zip_star {A} (ls : list (list A)) : list (list A) :=
  match ls with
  | [] => []
  | l :: ls' =>
      match ls' with
      | [] => (λ x, [x]) <$> l
      | _ :: _ => zip_with cons l (zip_star ls')
      end
  end.

(** [{idx: x for (idx, x) in enumerate(l)}] *)
Definition enumerate_dict {A} (l : list A) : gmap nat A := map_seq 0 l.

(** ** Collecting the scores *)

(** [for sc, m in zip(score, method): ret_scores[m] = sc] *)
Definition store_zip (score : list num) (names : list string)
    (ret_scores : report) : report :=
  foldl (λ r p, <[p.2 := VNum p.1]> r) ret_scores (zip score names).

(** The body shared by the two methods of [NLGEval] (after the call to
    [compute_score]): a list of names is zipped with the scores, which
    raises when the score is not iterable; one name stores the score. *)
Definition store (m : method) (score : value num) (ret_scores : report)
  : M report :=
  match m with
  | MList names =>
      match score with
      | VList l => ret (store_zip l names ret_scores)
      | VNum _ => raise TypeError
      end
  | MName name => ret (<[name := score]> ret_scores)
  end.

(** The same body in the module-level [compute_metrics], which prints
    each score with ["%s: %0.6f"] before it stores it. *)
Definition store_zip_print (score : list num) (names : list string)
    (ret_scores : report) : M report :=
  for_each (zip score names)
    (λ p r, run! emit (EvPrint p.2 p.1) in ret (<[p.2 := VNum p.1]> r))
    ret_scores.

Definition store_print (m : method) (score : value num) (ret_scores : report)
  : M report :=
  match m with
  | MList names =>
      match score with
      | VList l => store_zip_print l names ret_scores
      | VNum _ => raise TypeError
      end
  | MName name =>
      match score with
      | VNum x =>
          run! emit (EvPrint name x) in ret (<[name := score]> ret_scores)
      | VList _ => raise TypeError
      end
  end.

(** The scorer list both module-level functions build. *)
Definition all_scorers : M (list descriptor) :=
  let! b := new (Bleu 4) in
  let! m := new Meteor in
  let! r := new Rouge in
  let! c := new Cider in
  let! s := new Spice in
  ret [ (b, MList ["Bleu_1"; "Bleu_2"; "Bleu_3"; "Bleu_4"]);
        (m, MName "METEOR");
        (r, MName "ROUGE_L");
        (c, MName "CIDEr");
        (s, MName "SPICE") ].

(** ** The four entry points *)

(** Module-level [compute_metrics], from the transposition on: what it
    does with the lines read from the hypothesis file and from the
    reference files. *)
Definition compute_metrics_on_lines (hyp_list : list string)
    (ref_list : list (list string)) : M report :=
  let ref_list := (λ refs : list string, _strip <$> refs) <$> zip_star ref_list in
  let refs : alignment := enumerate_dict ref_list in
  let hyps : alignment :=
    enumerate_dict ((λ lines, [PyStr.strip lines]) <$> hyp_list) in
  run! assert_ (bool_decide (size refs = size hyps)) in
  let! scorers := all_scorers in
  for_each scorers
    (λ '(scorer, method) ret_scores,
       let! score := call_compute_score scorer refs hyps in
       let! ret_scores := store_print method score ret_scores in
       run! (if is_meteor scorer then call_close scorer else ret tt) in
       ret ret_scores)
    ∅.

(** Module-level [compute_metrics(hypothesis, references)]: the files are
    read, then the lines are processed. *)
Definition compute_metrics (hypothesis : string) (references : list string)
  : M report :=
  let! hyp_list := open_readlines hypothesis in
  let! ref_list :=
    for_each references
      (λ reference ref_list,
         let! lines := open_readlines reference in ret (ref_list ++ [lines]))
      [] in
  compute_metrics_on_lines hyp_list ref_list.

(** Module-level [compute_individual_metrics(ref, hyp)]; the assertion on
    [hyp] holds by its type. *)
Definition compute_individual_metrics (ref : pyref) (hyp : string)
  : M report :=
  let ref :=
    match ref with
    | RStr s => RSeq (PyStr.split "||<|>||" s)
    | RSeq _ => ref
    end in
  let ref := PyStr.strip <$> iter_ref ref in
  let refs : alignment := {[ 0 := ref ]} in
  let hyps : alignment := {[ 0 := [PyStr.strip hyp] ]} in
  let! scorers := all_scorers in
  for_each scorers
    (λ '(scorer, method) ret_scores,
       let! score := call_compute_score scorer refs hyps in
       let! ret_scores := store method score ret_scores in
       run! (if is_meteor scorer then call_close scorer else ret tt) in
       ret ret_scores)
    ∅.

(** [NLGEval.compute_individual_metrics(self, ref, hyp)] *)
Definition NLGEval_compute_individual_metrics (self : NLGEval)
    (ref : pyref) (hyp : string) : M report :=
  let ref := PyStr.strip <$> iter_ref ref in
  let refs : alignment := {[ 0 := ref ]} in
  let hyps : alignment := {[ 0 := [PyStr.strip hyp] ]} in
  for_each (scorers self)
    (λ '(scorer, method) ret_scores,
       let! score := call_compute_score scorer refs hyps in
       store method score ret_scores)
    ∅.

(** [NLGEval.compute_metrics(self, ref_list, hyp_list)] *)
Definition NLGEval_compute_metrics (self : NLGEval)
    (ref_list : list (list string)) (hyp_list : list string) : M report :=
  let ref_list := (λ refs : list string, _strip <$> refs) <$> zip_star ref_list in
  let refs : alignment := enumerate_dict ref_list in
  let hyps : alignment :=
    enumerate_dict ((λ lines, [PyStr.strip lines]) <$> hyp_list) in
  run! assert_ (bool_decide (size refs = size hyps)) in
  for_each (scorers self)
    (λ '(scorer, method) ret_scores,
       let! score := call_compute_score scorer refs hyps in
       store method score ret_scores)
    ∅.

End Model.

(** ** Vocabulary of the properties *)

(** The descriptor of the vector metric cut down to its first [k] tiers;
    none when [k] is 0. *)
Definition bleu_tiers (k : nat) : list descriptor :=
  match k with
  | 0 => []
  | S _ => [(Bleu k, MList (bleu_name <$> seq 1 k))]
  end.

(** A scalar metric is present exactly when its name is not omitted. *)
Definition scalar_entry (omit : gset string) (cls : scorer) (name : string)
  : list descriptor :=
  if decide (name ∈ omit) then [] else [(cls, MName name)].

Definition scalar_metrics (omit : gset string) : list descriptor :=
  scalar_entry omit Meteor "METEOR" ++ scalar_entry omit Rouge "ROUGE_L"
  ++ scalar_entry omit Cider "CIDEr" ++ scalar_entry omit Spice "SPICE".

(** Tier [i] is the lowest tier named in [omit]. *)
Definition first_omitted (omit : gset string) (i : nat) : Prop :=
  bleu_name i ∈ omit ∧ ∀ j, 1 ≤ j < i → bleu_name j ∉ omit.

(** Every name the descriptors of a list declare. *)
Definition declared_names (ds : list descriptor) : gset string :=
  list_to_set (ds ≫= λ d, declared d.2).

(** Items and hypotheses as they must sit in the two dictionaries: at each
    index the trimmed references of the item, and the trimmed hypothesis as
    a one-element list. *)
Definition stored_trimmed (items : list (list string)) (hyp_list : list string)
    (refs hyps : alignment) : Prop :=
  (∀ i, refs !! i = (fmap PyStr.strip) <$> (items !! i))
  ∧ (∀ i, hyps !! i = (λ h, [PyStr.strip h]) <$> (hyp_list !! i)).

(** What a trace shows of the scorers' lifecycle. *)
Inductive action : Type :=
| Call (s : scorer)
| Release (s : scorer).

#[global] Instance action_eq_dec : EqDecision action.
Proof. solve_decision. Defined.

(** One turn of a module-level loop that returns: the scorer is called, and
    released right after when it is the METEOR scorer. *)
Definition turn (d : descriptor) : list action :=
  Call d.1 :: (if is_meteor d.1 then [Release d.1] else []).

Section Traces.
Context `{Collaborators}.

Definition schedule (t : list event) : list action :=
  omap (λ ev,
          match ev with
          | EvCompute s _ _ => Some (Call s)
          | EvClose s => Some (Release s)
          | _ => None
          end) t.

(** Every call of [compute_score] recorded in [t] was made with arguments
    satisfying [P]. *)
Definition call_with (P : alignment → alignment → Prop) (ev : event) : Prop :=
  match ev with EvCompute _ r h => P r h | _ => True end.

Definition every_call (P : alignment → alignment → Prop) (t : list event)
  : Prop :=
  Forall (call_with P) t.

Definition is_release (ev : event) : bool :=
  match ev with EvClose _ => true | _ => false end.

(** The METEOR scorer appears in the trace, as constructed or as called. *)
Definition uses_meteor (t : list event) : bool :=
  existsb (λ ev,
             match ev with
             | EvNew Meteor | EvCompute Meteor _ _ => true
             | _ => false
             end) t.

Definition releases_meteor (t : list event) : bool :=
  bool_decide (Release Meteor ∈ schedule t).

(** The uniform scoring contract for one descriptor: the call returns, with
    one score per declared name. *)
Definition honors_contract (d : descriptor) : Prop :=
  ∀ refs hyps w, ∃ v w',
    compute_score d.1 refs hyps w = (inr v, w')
    ∧ match d.2, v with
      | MList names, VList l => length l = length names
      | MName _, VNum _ => True
      | _, _ => False
      end.

(** The outcome of [compute_score] is a function of its arguments alone. *)
Definition deterministic_scorers : Prop :=
  ∀ s refs hyps w1 w2,
    (compute_score s refs hyps w1).1 = (compute_score s refs hyps w2).1.

(** Statement [m], started in world [w], returns [a] (it does not raise). *)
Definition returns {A} (m : M A) (w : world) (a : A) : Prop :=
  ∃ w' t, m w = (inr a, w', t).

(** The result, the world and the trace of running a statement. *)
Definition result {A} (o : (error + A) * world * list event) : error + A := o.1.1.
Definition world_after {A} (o : (error + A) * world * list event) : world := o.1.2.
Definition trace {A} (o : (error + A) * world * list event) : list event := o.2.

(** Statement [m] never raises the assertion error. *)
Definition no_assertion_error {A} (m : M A) : Prop :=
  ∀ w, result (m w) ≠ inl AssertionError.

(** Every event a statement produces satisfies [P]. *)
Definition trace_all {A} (P : event → Prop) (m : M A) : Prop :=
  ∀ w, Forall P (trace (m w)).

End Traces.

(** ** Sample collaborators *)

(** Scorers that always answer 1 (one per tier for [Bleu n]); the world
    counts the calls made.  Three small files. *)
Definition nl : string := String (ascii_of_nat 10) EmptyString.

Definition sample_files (path : string) : option (list string) :=
  if decide (path = "hyp.txt") then
    Some [" the cat sat" +:+ nl; "a dog" +:+ nl]
  else if decide (path = "ref1.txt") then
    Some ["the cat sat on the mat" +:+ nl; "a dog barked" +:+ nl;
          "left over" +:+ nl]
  else if decide (path = "ref2.txt") then
    Some ["a cat sat" +:+ nl; "the dog" +:+ nl]
  else None.

Definition steady : Collaborators := {|
  num := nat;
  exn := string;
  world := nat;
  new_scorer := λ _ w, w;
  compute_score := λ s _ _ w,
    (match s with Bleu n => inr (VList (replicate n 1)) | _ => inr (VNum 1) end,
     S w);
  close := λ _ w, w;
  readlines := sample_files;
|}.

(** The same, except that the METEOR scorer raises. *)
Definition broken_meteor : Collaborators := {|
  num := nat;
  exn := string;
  world := nat;
  new_scorer := λ _ w, w;
  compute_score := λ s _ _ w,
    (match s with
     | Bleu n => inr (VList (replicate n 1))
     | Meteor => inl "java process died"
     | _ => inr (VNum 1)
     end, S w);
  close := λ _ w, w;
  readlines := sample_files;
|}.

(** Scorers whose answer depends on their state: each call answers the
    number of calls made before it. *)
Definition counting : Collaborators := {|
  num := nat;
  exn := string;
  world := nat;
  new_scorer := λ _ w, w;
  compute_score := λ s _ _ w,
    (match s with Bleu n => inr (VList (replicate n w)) | _ => inr (VNum w) end,
     S w);
  close := λ _ w, w;
  readlines := sample_files;
|}.

(** ** Further vocabulary *)

Section Observations.
Context `{Collaborators}.

(** The calls of [compute_score] a pass over [ds] makes, in order. *)
Definition calls_of (ds : list descriptor) (refs hyps : alignment)
  : list event :=
  (λ d, EvCompute d.1 refs hyps) <$> ds.

(** What the [print] statements recorded in a trace were given to format
    with ["%s: %0.6f"]: the name and the score of each line, in order. *)
Definition print_arguments (t : list event) : list (string * num) :=
  omap (λ ev,
          match ev with
          | EvPrint name x => Some (name, x)
          | _ => None
          end) t.

(** The lines a trace shows, [fmt] being the rendering of a score with six
    decimals. *)
Definition printed_text (fmt : num → string) (t : list event) : list string :=
  (λ p, p.1 +:+ ": " +:+ fmt p.2) <$> print_arguments t.

(** The calls of [compute_score] recorded in a trace, each with the two
    dictionaries it was given. *)
Definition calls (t : list event) : list (scorer * alignment * alignment) :=
  omap (λ ev,
          match ev with
          | EvCompute s refs hyps => Some (s, refs, hyps)
          | _ => None
          end) t.

(** The [compute_score] of scorer [s] raises [e] whatever it is given. *)
Definition always_raises (s : scorer) (e : exn) : Prop :=
  ∀ refs hyps w, ∃ w', compute_score s refs hyps w = (inl e, w').

End Observations.

(** A descriptor pairs [Bleu n] with the names of tiers 1 to [n], or a
    scalar scorer with its own name. *)
Definition well_formed (d : descriptor) : Prop :=
  match d with
  | (Bleu n, MList names) => 1 ≤ n ≤ 4 ∧ names = bleu_name <$> seq 1 n
  | (Meteor, MName name) => name = "METEOR"
  | (Rouge, MName name) => name = "ROUGE_L"
  | (Cider, MName name) => name = "CIDEr"
  | (Spice, MName name) => name = "SPICE"
  | _ => False
  end.

(** The set of names [NLGEval(metrics_to_omit)] works with. *)
Definition omission_set (metrics_to_omit : option (list string)) : gset string :=
  match metrics_to_omit with
  | None => ∅
  | Some l => list_to_set l
  end.

(** The scorer list of the two module-level functions. *)
Definition legacy_descriptors : list descriptor :=
  [ (Bleu 4, MList ["Bleu_1"; "Bleu_2"; "Bleu_3"; "Bleu_4"]);
    (Meteor, MName "METEOR");
    (Rouge, MName "ROUGE_L");
    (Cider, MName "CIDEr");
    (Spice, MName "SPICE") ].

(** What the two dictionaries of a corpus of [sources] reference sources
    satisfy: the same keys, one hypothesis per key, one reference per source
    for every key. *)
Definition aligned (sources : nat) (refs hyps : alignment) : Prop :=
  dom refs = dom hyps
  ∧ (∀ i h, hyps !! i = Some h → length h = 1)
  ∧ (∀ i r, refs !! i = Some r → length r = sources).

(** The names of the four scalar metrics. *)
Definition scalar_names : list string := ["METEOR"; "ROUGE_L"; "CIDEr"; "SPICE"].

(** * Properties *)

(** ** Trimming and splitting *)

Lemma append_cons c (a b : string) : String c a +:+ b = String c (a +:+ b).
Proof. reflexivity. Qed.

Lemma append_nil_l (a : string) : EmptyString +:+ a = a.
Proof. reflexivity. Qed.

Lemma append_nil_r (a : string) : a +:+ EmptyString = a.
Proof. induction a as [|c a IH]; [done|]. by rewrite append_cons, IH. Qed.

Lemma append_assoc (a b c : string) : (a +:+ b) +:+ c = a +:+ (b +:+ c).
Proof.
  induction a as [|x a IH]; [done|]. by rewrite !append_cons, IH.
Qed.

Section StripFacts.
Variable sp : ascii → bool.

Lemma lstrip_head s : PyStr.head_is sp (PyStr.lstrip_with sp s) = false.
Proof.
  induction s as [|c s IH]; simpl; [done|].
  destruct (sp c) eqn:Hc; [done|]. simpl. exact Hc.
Qed.

Lemma lstrip_fixed s : PyStr.head_is sp s = false → PyStr.lstrip_with sp s = s.
Proof. destruct s as [|c s]; simpl; [done|]. by intros ->. Qed.

Lemma lstrip_split s :
  ∃ l, s = l +:+ PyStr.lstrip_with sp s ∧ PyStr.all_space sp l = true.
Proof.
  induction s as [|c s (l & Hl & Hsp)]; simpl.
  - by exists EmptyString.
  - destruct (sp c) eqn:Hc.
    + exists (String c l). simpl. rewrite Hc, Hsp. split; [|done].
      rewrite append_cons. f_equal. exact Hl.
    + by exists EmptyString.
Qed.

Lemma rstrip_split s :
  ∃ r, s = PyStr.rstrip_with sp s +:+ r ∧ PyStr.all_space sp r = true.
Proof.
  induction s as [|c s (r & Hr & Hsp)]; simpl.
  - by exists EmptyString.
  - destruct (sp c) eqn:Hc; simpl.
    + destruct (PyStr.rstrip_with sp s) as [|d u] eqn:Hu; simpl.
      * exists (String c r). simpl in *. rewrite Hc, Hsp. split; [|done].
        rewrite append_nil_l in Hr. rewrite append_nil_l. by rewrite <-Hr.
      * exists r. split; [|done]. rewrite append_cons. f_equal. exact Hr.
    + exists r. split; [|done]. rewrite append_cons. f_equal. exact Hr.
Qed.

Lemma rstrip_last s : PyStr.last_is sp (PyStr.rstrip_with sp s) = false.
Proof.
  induction s as [|c s IH]; simpl; [done|].
  destruct (sp c) eqn:Hc; simpl.
  - destruct (PyStr.rstrip_with sp s) as [|d u] eqn:Hu; simpl; [done|].
    exact IH.
  - destruct (PyStr.rstrip_with sp s) as [|d u] eqn:Hu; simpl; [done|].
    exact IH.
Qed.

Lemma rstrip_head s :
  PyStr.head_is sp s = false → PyStr.head_is sp (PyStr.rstrip_with sp s) = false.
Proof.
  destruct s as [|c s]; simpl; [done|]. intros Hc. rewrite Hc. simpl. exact Hc.
Qed.

Lemma rstrip_idem s :
  PyStr.rstrip_with sp (PyStr.rstrip_with sp s) = PyStr.rstrip_with sp s.
Proof.
  induction s as [|c s IH]; simpl; [done|].
  destruct (sp c) eqn:Hc; simpl.
  - destruct (PyStr.rstrip_with sp s) as [|d u] eqn:Hu; simpl; [done|].
    rewrite Hc. simpl. simpl in IH. rewrite IH. done.
  - rewrite Hc, IH. done.
Qed.

Lemma strip_with_idem s :
  PyStr.strip_with sp (PyStr.strip_with sp s) = PyStr.strip_with sp s.
Proof.
  unfold PyStr.strip_with.
  rewrite (lstrip_fixed (PyStr.rstrip_with sp _)).
  - apply rstrip_idem.
  - apply rstrip_head, lstrip_head.
Qed.

Lemma strip_with_spec s :
  ∃ l r,
    s = l +:+ PyStr.strip_with sp s +:+ r
    ∧ PyStr.all_space sp l = true ∧ PyStr.all_space sp r = true
    ∧ PyStr.head_is sp (PyStr.strip_with sp s) = false
    ∧ PyStr.last_is sp (PyStr.strip_with sp s) = false.
Proof.
  destruct (lstrip_split s) as (l & Hl & Hlsp).
  destruct (rstrip_split (PyStr.lstrip_with sp s)) as (r & Hr & Hrsp).
  exists l, r. unfold PyStr.strip_with. repeat split; try done.
  - by rewrite <-Hr.
  - apply rstrip_head, lstrip_head.
  - apply rstrip_last.
Qed.

End StripFacts.

Section SplitFacts.

Lemma append_length (a b : string) :
  String.length (a +:+ b) = String.length a + String.length b.
Proof. induction a as [|c a IH]; [done|]. rewrite append_cons. simpl. by rewrite IH. Qed.

Lemma strip_prefix_Some p s rest :
  PyStr.strip_prefix p s = Some rest → s = p +:+ rest.
Proof.
  revert s. induction p as [|a p IH]; intros s; simpl.
  - by intros [= ->].
  - destruct s as [|b s]; [done|]. case_decide; [|done].
    intros Hp. subst b. rewrite append_cons. f_equal. by apply IH.
Qed.

Lemma split_go_skip sep t s cur :
  PyStr.split_go sep (String.length t) cur (t +:+ s) = PyStr.split_go sep 0 cur s.
Proof.
  induction t as [|c t IH]; simpl; [by destruct s|]. exact IH.
Qed.

Lemma split_go_cons sep k cur s :
  ∃ x l, PyStr.split_go sep k cur s = x :: l.
Proof.
  revert k cur. induction s as [|c s IH]; intros k cur; simpl; [by eauto|].
  destruct k; [|by apply IH].
  destruct (PyStr.strip_prefix sep (String c s)); [by eauto|by apply IH].
Qed.

Lemma join_cons sep x y l :
  PyStr.join sep (x :: y :: l) = x +:+ sep +:+ PyStr.join sep (y :: l).
Proof. reflexivity. Qed.

Lemma join_split_go sep n :
  sep ≠ EmptyString →
  ∀ s cur, String.length s ≤ n →
    PyStr.join sep (PyStr.split_go sep 0 cur s) = cur +:+ s.
Proof.
  intros Hsep. induction n as [|n IH]; intros s cur Hn.
  - destruct s; [|simpl in Hn; lia]. simpl. by rewrite append_nil_r.
  - destruct s as [|c s]; [simpl; by rewrite append_nil_r|].
    simpl in Hn. cbn [PyStr.split_go].
    destruct (PyStr.strip_prefix sep (String c s)) as [rest|] eqn:Hp.
    + destruct sep as [|a p]; [done|]. simpl in Hp.
      case_decide; [|done]. subst a.
      apply strip_prefix_Some in Hp. subst s.
      replace (String.length (String c p) - 1) with (String.length p)
        by (simpl; lia).
      rewrite split_go_skip.
      destruct (split_go_cons (String c p) 0 EmptyString rest) as (x & l & Hx).
      rewrite append_length in Hn.
      specialize (IH rest EmptyString ltac:(lia)).
      rewrite Hx in IH |- *. rewrite join_cons, IH, append_nil_l.
      by rewrite !append_cons.
    + rewrite IH by lia. rewrite append_assoc. by rewrite append_cons.
Qed.

(** Joining the pieces of a split with the separator gives the text back. *)
Lemma join_split sep s :
  sep ≠ EmptyString → PyStr.join sep (PyStr.split sep s) = s.
Proof.
  intros Hsep. unfold PyStr.split.
  by rewrite (join_split_go sep (String.length s)).
Qed.

End SplitFacts.

(** ** Running statements *)

Section MonadFacts.
Context `{Collaborators}.

Lemma bind_inr {A B} (m : M A) (k : A → M B) w a w1 t1 :
  m w = (inr a, w1, t1) →
  bind m k w = (result (k a w1), world_after (k a w1), t1 ++ trace (k a w1)).
Proof.
  intros Hm. unfold bind. rewrite Hm. by destruct (k a w1) as [[r w2] t2].
Qed.

Lemma bind_inl {A B} (m : M A) (k : A → M B) w e w1 t1 :
  m w = (inl e, w1, t1) → bind m k w = (inl e, w1, t1).
Proof. intros Hm. unfold bind. by rewrite Hm. Qed.

Lemma returns_ret {A} (a : A) w : returns (ret a) w a.
Proof. by exists w, []. Qed.

Lemma returns_bind {A B} (m : M A) (k : A → M B) w a b :
  returns m w a → (∀ w', returns (k a) w' b) → returns (bind m k) w b.
Proof.
  intros (w1 & t1 & Hm) Hk. destruct (Hk w1) as (w2 & t2 & Hk1).
  exists w2, (t1 ++ t2). by rewrite (bind_inr _ _ _ _ _ _ Hm), Hk1.
Qed.

Lemma returns_new s w : returns (new s) w s.
Proof. by eexists _, _. Qed.

Lemma returns_assert b w : b = true → returns (assert_ b) w ().
Proof. intros ->. apply returns_ret. Qed.

End MonadFacts.

(** ** The registry *)

Section Registry.
Context `{Collaborators}.

Example bleu_names_4 :
  bleu_name <$> seq 1 4 = ["Bleu_1"; "Bleu_2"; "Bleu_3"; "Bleu_4"].
Proof. reflexivity. Qed.

Lemma load_bleu_none omit todo acc w :
  (∀ j, j ∈ todo → bleu_name j ∉ omit) →
  load_bleu omit todo acc w = (inr (acc, false), w, []).
Proof.
  induction todo as [|i todo IH]; intros Hno; simpl; [done|].
  rewrite decide_False by (apply Hno; left).
  apply IH. intros j Hj. apply Hno. by right.
Qed.

Lemma load_bleu_first omit pre i post acc w :
  (∀ j, j ∈ pre → bleu_name j ∉ omit) → bleu_name i ∈ omit →
  returns (load_bleu omit (pre ++ i :: post) acc) w (acc ++ bleu_tiers (i - 1), true).
Proof.
  intros Hpre Hi. induction pre as [|j pre IH]; simpl.
  - rewrite decide_True by done. case_decide as Hlt.
    + destruct i as [|[|i]]; [lia..|].
      unfold range. simpl.
      eapply returns_bind; [apply returns_new|]. intros w'. apply returns_ret.
    + replace (i - 1) with 0 by lia. simpl. rewrite app_nil_r. apply returns_ret.
  - rewrite decide_False by (apply Hpre; left).
    apply IH. intros k Hk. apply Hpre. by right.
Qed.

Lemma load_scalar_returns omit cls name acc w :
  returns (load_scalar omit cls name acc) w (acc ++ scalar_entry omit cls name).
Proof.
  unfold load_scalar, scalar_entry.
  destruct (decide (name ∈ omit)) as [Hin|Hout].
  - rewrite decide_False by (by intros ?). rewrite app_nil_r. apply returns_ret.
  - rewrite decide_True by done.
    eapply returns_bind; [apply returns_new|]. intros w'. apply returns_ret.
Qed.

Lemma load_scalars_returns omit acc w :
  returns
    (bind (load_scalar omit Meteor "METEOR" acc) (λ scorers,
     bind (load_scalar omit Rouge "ROUGE_L" scorers) (λ scorers,
     bind (load_scalar omit Cider "CIDEr" scorers) (λ scorers,
     load_scalar omit Spice "SPICE" scorers))))
    w (acc ++ scalar_metrics omit).
Proof.
  unfold scalar_metrics. rewrite !app_assoc.
  eapply returns_bind; [apply load_scalar_returns|]. intros w1.
  eapply returns_bind; [apply load_scalar_returns|]. intros w2.
  eapply returns_bind; [apply load_scalar_returns|]. intros w3.
  apply load_scalar_returns.
Qed.

Lemma range_1_5_split i :
  1 ≤ i ≤ 4 → range 1 (4 + 1) = seq 1 (i - 1) ++ i :: seq (S i) (4 - i).
Proof.
  intros Hi. assert (i = 1 ∨ i = 2 ∨ i = 3 ∨ i = 4) as [->|[->|[->| ->]]] by lia;
    reflexivity.
Qed.

Lemma load_scorers_first omit i w :
  1 ≤ i ≤ 4 → first_omitted omit i →
  returns (load_scorers omit) w (bleu_tiers (i - 1) ++ scalar_metrics omit).
Proof.
  intros Hi [Hin Hlow]. unfold load_scorers. rewrite (range_1_5_split i Hi).
  eapply returns_bind.
  - apply load_bleu_first; [|done]. intros j Hj. apply Hlow.
    apply elem_of_seq in Hj. lia.
  - intros w1. cbn beta iota. eapply returns_bind; [apply returns_ret|].
    intros w2. apply load_scalars_returns.
Qed.

Lemma load_scorers_none omit w :
  (∀ j, 1 ≤ j ≤ 4 → bleu_name j ∉ omit) →
  returns (load_scorers omit) w (bleu_tiers 4 ++ scalar_metrics omit).
Proof.
  intros Hno. unfold load_scorers. eapply returns_bind.
  - exists w, []. apply load_bleu_none. intros j Hj. apply Hno.
    apply elem_of_seq in Hj. simpl in Hj. lia.
  - intros w1. cbn beta iota. eapply returns_bind.
    + eapply returns_bind; [apply returns_new|]. intros w2. apply returns_ret.
    + intros w2. apply load_scalars_returns.
Qed.

Lemma valid_omission_size (omit : gset string) :
  omit ⊆ valid_metrics ↔ size (omit ∖ valid_metrics) = 0.
Proof.
  rewrite size_empty_iff, elem_of_equiv_empty. split.
  - intros Hsub x. rewrite elem_of_difference. intros [Hx Hn]. by apply Hn, Hsub.
  - intros Hempty x Hx. destruct (decide (x ∈ valid_metrics)) as [|Hn]; [done|].
    exfalso. apply (Hempty x). by apply elem_of_difference.
Qed.

Lemma init_returns l w ds :
  list_to_set l ⊆ valid_metrics →
  (∀ w', returns (load_scorers (list_to_set l)) w' ds) →
  returns (NLGEval_init (Some l)) w
    {| metrics_to_omit := list_to_set l; scorers := ds |}.
Proof.
  intros Hvalid Hload. unfold NLGEval_init.
  eapply returns_bind.
  - apply returns_assert, bool_decide_eq_true, valid_omission_size, Hvalid.
  - intros w1. eapply returns_bind; [apply Hload|]. intros w2. apply returns_ret.
Qed.

(** C1. Omission cascade: for a valid omission set whose lowest omitted
    Bleu tier is [i] (between 1 and 4), construction yields the Bleu
    descriptor for tiers 1 to [i - 1] (none when [i] is 1), whatever higher
    tiers are named, followed by METEOR, ROUGE_L, CIDEr and SPICE, in that
    order, each present exactly when its name is not omitted; when no tier
    is omitted the Bleu descriptor covers tiers 1 to 4. *)
Theorem omission_cascade (l : list string) (w : world) :
  list_to_set l ⊆ valid_metrics →
  (∀ i, 1 ≤ i ≤ 4 → first_omitted (list_to_set l) i →
     returns (NLGEval_init (Some l)) w
       {| metrics_to_omit := list_to_set l;
          scorers := bleu_tiers (i - 1) ++ scalar_metrics (list_to_set l) |})
  ∧ ((∀ j, 1 ≤ j ≤ 4 → bleu_name j ∉ (list_to_set l : gset string)) →
     returns (NLGEval_init (Some l)) w
       {| metrics_to_omit := list_to_set l;
          scorers := bleu_tiers 4 ++ scalar_metrics (list_to_set l) |}).
Proof.
  intros Hvalid. split.
  - intros i Hi Hfirst. apply init_returns; [done|].
    intros w'. by apply load_scorers_first.
  - intros Hnone. apply init_returns; [done|].
    intros w'. by apply load_scorers_none.
Qed.

(** C4. An omission set with a name outside the catalog makes construction
    raise the assertion error, in the unchanged world and with no event: no
    scorer was constructed or called, and no evaluator is returned. *)
Theorem unrecognized_omission_rejected (l : list string) (x : string) (w : world) :
  x ∈ l → x ∉ valid_metrics →
  NLGEval_init (Some l) w = (inl AssertionError, w, []).
Proof.
  intros Hx Hn. unfold NLGEval_init.
  apply bind_inl. rewrite bool_decide_eq_false_2; [done|].
  rewrite <-valid_omission_size. intros Hsub. apply Hn, Hsub.
  by apply elem_of_list_to_set.
Qed.

End Registry.

(** ** Alignment *)

Section Alignment.
Context `{Collaborators}.

Lemma bind_silent {A B} (m : M A) (k : A → M B) w a :
  m w = (inr a, w, []) → bind m k w = k a w.
Proof.
  intros Hm. unfold bind. rewrite Hm. by destruct (k a w) as [[r w2] t2].
Qed.

Lemma size_enumerate_dict {A} (l : list A) : size (enumerate_dict l) = length l.
Proof.
  unfold enumerate_dict. generalize 0.
  induction l as [|x l IH]; intros n; simpl; [apply map_size_empty|].
  rewrite map_size_insert_None by apply map_seq_cons_disjoint.
  by rewrite IH.
Qed.

Lemma lookup_enumerate_dict {A} (l : list A) i : enumerate_dict l !! i = l !! i.
Proof. apply lookup_map_seq_0. Qed.

Lemma zip_star_cons2 {A} (l l' : list A) ls :
  zip_star (l :: l' :: ls) = zip_with cons l (zip_star (l' :: ls)).
Proof. reflexivity. Qed.

Lemma zip_star_lookup {A} (ls : list (list A)) i :
  ls ≠ [] → zip_star ls !! i = mapM (λ l, l !! i) ls.
Proof.
  induction ls as [|l ls IH]; [done|]. intros _.
  destruct ls as [|l' ls].
  - simpl. rewrite list_lookup_fmap. by destruct (l !! i).
  - rewrite zip_star_cons2, lookup_zip_with, IH by done.
    change (mapM (λ l0 : list A, l0 !! i) (l :: l' :: ls))
      with (y ← l !! i; k ← mapM (λ l0 : list A, l0 !! i) (l' :: ls); Some (y :: k)).
    done.
Qed.

Lemma zip_star_length_le {A} (ls : list (list A)) l :
  l ∈ ls → length (zip_star ls) ≤ length l.
Proof.
  induction ls as [|l0 ls IH]; [by intros ?%elem_of_nil|].
  destruct ls as [|l' ls].
  - intros ->%list_elem_of_singleton. simpl. by rewrite length_fmap.
  - rewrite zip_star_cons2, length_zip_with.
    intros [->|Hin]%elem_of_cons; [lia|]. specialize (IH Hin). lia.
Qed.

Lemma zip_star_length_attained {A} (ls : list (list A)) :
  ls ≠ [] → ∃ l, l ∈ ls ∧ length (zip_star ls) = length l.
Proof.
  induction ls as [|l0 ls IH]; [done|]. intros _.
  destruct ls as [|l' ls].
  - exists l0. split; [left|]. simpl. by rewrite length_fmap.
  - destruct IH as (l & Hin & Hlen); [done|].
    rewrite zip_star_cons2, length_zip_with.
    destruct (decide (length l0 ≤ length (zip_star (l' :: ls)))).
    + exists l0. split; [left|lia].
    + exists l. split; [by right|lia].
Qed.

Lemma sizes_differ (ref_list : list (list string)) (hyp_list : list string) :
  bool_decide
    (size (enumerate_dict ((λ refs : list string, _strip <$> refs) <$> zip_star ref_list))
     = size (enumerate_dict ((λ lines, [PyStr.strip lines]) <$> hyp_list)))
  = bool_decide (length (zip_star ref_list) = length hyp_list).
Proof. by rewrite !size_enumerate_dict, !length_fmap. Qed.

Lemma NLGEval_compute_metrics_mismatch self ref_list hyp_list w :
  length hyp_list ≠ length (zip_star ref_list) →
  NLGEval_compute_metrics self ref_list hyp_list w = (inl AssertionError, w, []).
Proof.
  intros Hne. unfold NLGEval_compute_metrics. apply bind_inl.
  rewrite sizes_differ, bool_decide_eq_false_2; [done|]. by intros ?.
Qed.

Lemma compute_metrics_on_lines_mismatch ref_list hyp_list w :
  length hyp_list ≠ length (zip_star ref_list) →
  compute_metrics_on_lines hyp_list ref_list w = (inl AssertionError, w, []).
Proof.
  intros Hne. unfold compute_metrics_on_lines. apply bind_inl.
  rewrite sizes_differ, bool_decide_eq_false_2; [done|]. by intros ?.
Qed.

Lemma read_all references ref_list acc w :
  Forall2 (λ path lines, readlines path = Some lines) references ref_list →
  for_each references
    (λ reference ref_list,
       bind (open_readlines reference) (λ lines, ret (ref_list ++ [lines])))
    acc w
  = (inr (acc ++ ref_list), w, []).
Proof.
  intros Hall. revert acc.
  induction Hall as [|path lines references ref_list Hread _ IH]; intros acc; simpl.
  - by rewrite app_nil_r.
  - rewrite (bind_silent _ _ w (acc ++ [lines])).
    + rewrite IH. by rewrite <-app_assoc.
    + unfold open_readlines. rewrite Hread. done.
Qed.

Lemma compute_metrics_read hypothesis references hyp_list ref_list w :
  readlines hypothesis = Some hyp_list →
  Forall2 (λ path lines, readlines path = Some lines) references ref_list →
  compute_metrics hypothesis references w
  = compute_metrics_on_lines hyp_list ref_list w.
Proof.
  intros Hhyp Hrefs. unfold compute_metrics.
  rewrite (bind_silent _ _ w hyp_list)
    by (unfold open_readlines; by rewrite Hhyp).
  rewrite (bind_silent _ _ w ref_list); [done|].
  by rewrite (read_all _ ref_list).
Qed.

(** C5. Alignment size invariant: when the number of hypotheses differs
    from the number of aligned reference sets, batch evaluation raises the
    assertion error in the unchanged world with an empty trace, so that no
    scorer was called and no report is returned; this holds for the method
    of the evaluator and for the module-level function once its files are
    read. *)
Theorem alignment_size_invariant :
  (∀ self ref_list hyp_list w,
     length hyp_list ≠ length (zip_star ref_list) →
     NLGEval_compute_metrics self ref_list hyp_list w
     = (inl AssertionError, w, []))
  ∧ (∀ hypothesis references hyp_list ref_list w,
       readlines hypothesis = Some hyp_list →
       Forall2 (λ path lines, readlines path = Some lines) references ref_list →
       length hyp_list ≠ length (zip_star ref_list) →
       compute_metrics hypothesis references w = (inl AssertionError, w, [])).
Proof.
  split.
  - intros. by apply NLGEval_compute_metrics_mismatch.
  - intros hypothesis references hyp_list ref_list w Hhyp Hrefs Hne.
    rewrite (compute_metrics_read _ _ hyp_list ref_list) by done.
    by apply compute_metrics_on_lines_mismatch.
Qed.

End Alignment.

(** ** What a run can raise and what it records *)

Section Runs.
Context `{Collaborators}.

Lemma result_bind {A B} (m : M A) (k : A → M B) w :
  result (bind m k w)
  = match result (m w) with
    | inl e => inl e
    | inr a => result (k a (world_after (m w)))
    end.
Proof.
  unfold bind, result, world_after. destruct (m w) as [[[e|a] w1] t1]; [done|].
  simpl. by destruct (k a w1) as [[r w2] t2].
Qed.

Lemma trace_bind {A B} (m : M A) (k : A → M B) w :
  trace (bind m k w)
  = match result (m w) with
    | inl e => trace (m w)
    | inr a => trace (m w) ++ trace (k a (world_after (m w)))
    end.
Proof.
  unfold bind, result, world_after, trace. destruct (m w) as [[[e|a] w1] t1]; [done|].
  simpl. by destruct (k a w1) as [[r w2] t2].
Qed.

Lemma bind_returns_inv {A B} (m : M A) (k : A → M B) w b w' t :
  bind m k w = (inr b, w', t) →
  ∃ a w1 t1 t2, m w = (inr a, w1, t1) ∧ k a w1 = (inr b, w', t2) ∧ t = t1 ++ t2.
Proof.
  unfold bind. destruct (m w) as [[[e|a] w1] t1]; [done|].
  destruct (k a w1) as [[r w2] t2] eqn:Hk. intros [= -> -> <-].
  by exists a, w1, t1, t2.
Qed.

Lemma trace_call s refs hyps w :
  trace (call_compute_score s refs hyps w) = [EvCompute s refs hyps].
Proof.
  unfold call_compute_score.
  by destruct (compute_score s refs hyps w) as [[e|v] w'].
Qed.

(** A loop whose body begins with the call of [compute_score] records
    the call for the first descriptor, whatever happens next. *)
Lemma first_call {S} (k : scorer → method → S → value num → M S)
    s m ds acc refs hyps w :
  EvCompute s refs hyps
  ∈ trace (for_each ((s, m) :: ds)
             (λ '(scorer, method) r,
                bind (call_compute_score scorer refs hyps) (k scorer method r))
             acc w).
Proof.
  cbn [for_each]. rewrite trace_bind.
  assert (EvCompute s refs hyps
          ∈ trace (bind (call_compute_score s refs hyps) (k s m acc) w)) as Hin.
  { rewrite trace_bind, trace_call.
    destruct (result _); [left|apply elem_of_app; left; left]. }
  destruct (result _); [done|]. apply elem_of_app. by left.
Qed.

(** *** No assertion error *)

Lemma no_assert_ret {A} (a : A) : no_assertion_error (ret a).
Proof. by intros w. Qed.

Lemma no_assert_raise_type {A} : no_assertion_error (raise (A:=A) TypeError).
Proof. by intros w. Qed.

Lemma no_assert_emit ev : no_assertion_error (emit ev).
Proof. by intros w. Qed.

Lemma no_assert_close s : no_assertion_error (call_close s).
Proof. by intros w. Qed.

Lemma no_assert_call s refs hyps : no_assertion_error (call_compute_score s refs hyps).
Proof.
  intros w. unfold call_compute_score.
  by destruct (compute_score s refs hyps w) as [[e|v] w'].
Qed.

Lemma no_assert_bind {A B} (m : M A) (k : A → M B) :
  no_assertion_error m → (∀ a, no_assertion_error (k a)) →
  no_assertion_error (bind m k).
Proof.
  intros Hm Hk w. rewrite result_bind. specialize (Hm w).
  destruct (result (m w)) as [e|a]; [|apply Hk].
  intros [= ->]. by apply Hm.
Qed.

Lemma no_assert_for_each {A S} (l : list A) (body : A → S → M S) s :
  (∀ x s, no_assertion_error (body x s)) → no_assertion_error (for_each l body s).
Proof.
  intros Hbody. revert s. induction l as [|x l IH]; intros s; simpl.
  - apply no_assert_ret.
  - apply no_assert_bind; [apply Hbody|]. intros s'. apply IH.
Qed.

Lemma no_assert_store m score ret_scores : no_assertion_error (store m score ret_scores).
Proof.
  destruct m, score; simpl;
    first [apply no_assert_ret | apply no_assert_raise_type].
Qed.

Lemma no_assert_store_print m score ret_scores :
  no_assertion_error (store_print m score ret_scores).
Proof.
  destruct m, score; simpl; try apply no_assert_raise_type.
  - apply no_assert_for_each. intros p r.
    apply no_assert_bind; [apply no_assert_emit|]. intros _. apply no_assert_ret.
  - apply no_assert_bind; [apply no_assert_emit|]. intros _. apply no_assert_ret.
Qed.

Lemma no_assert_all_scorers : no_assertion_error all_scorers.
Proof. by intros w. Qed.

(** *** Events of a given kind *)

Lemma trace_all_ret {A} P (a : A) : trace_all P (ret a).
Proof. intros w. constructor. Qed.

Lemma trace_all_raise {A} P e : trace_all P (raise (A:=A) e).
Proof. intros w. constructor. Qed.

Lemma trace_all_assert P b : trace_all P (assert_ b).
Proof. destruct b; [apply trace_all_ret|apply trace_all_raise]. Qed.

Lemma trace_all_emit (P : event → Prop) ev : P ev → trace_all P (emit ev).
Proof. intros Hev w. simpl. by repeat constructor. Qed.

Lemma trace_all_close (P : event → Prop) s :
  P (EvClose s) → trace_all P (call_close s).
Proof. intros Hev w. simpl. by repeat constructor. Qed.

Lemma trace_all_call (P : event → Prop) s refs hyps :
  P (EvCompute s refs hyps) → trace_all P (call_compute_score s refs hyps).
Proof.
  intros Hev w. unfold call_compute_score.
  destruct (compute_score s refs hyps w) as [[e|v] w']; simpl; by repeat constructor.
Qed.

Lemma trace_all_bind {A B} P (m : M A) (k : A → M B) :
  trace_all P m → (∀ a, trace_all P (k a)) → trace_all P (bind m k).
Proof.
  intros Hm Hk w. rewrite trace_bind. specialize (Hm w).
  destruct (result (m w)) as [e|a]; [done|].
  apply Forall_app. split; [done|]. apply Hk.
Qed.

Lemma trace_all_for_each {A S} P (l : list A) (body : A → S → M S) s :
  (∀ x s, trace_all P (body x s)) → trace_all P (for_each l body s).
Proof.
  intros Hbody. revert s. induction l as [|x l IH]; intros s; simpl.
  - apply trace_all_ret.
  - apply trace_all_bind; [apply Hbody|]. intros s'. apply IH.
Qed.

Lemma trace_all_store P m score ret_scores : trace_all P (store m score ret_scores).
Proof.
  destruct m, score; simpl; first [apply trace_all_ret | apply trace_all_raise].
Qed.

Lemma trace_all_store_print (P : event → Prop) m score ret_scores :
  (∀ name x, P (EvPrint name x)) → trace_all P (store_print m score ret_scores).
Proof.
  intros Hprint. destruct m, score; simpl; try apply trace_all_raise.
  - apply trace_all_for_each. intros p r.
    apply trace_all_bind; [by apply trace_all_emit|]. intros _. apply trace_all_ret.
  - apply trace_all_bind; [by apply trace_all_emit|]. intros _. apply trace_all_ret.
Qed.

Lemma trace_all_all_scorers (P : event → Prop) :
  (∀ s, P (EvNew s)) → trace_all P all_scorers.
Proof. intros Hnew w. simpl. by repeat constructor. Qed.

(** The loop of the two methods of the evaluator. *)
Lemma trace_all_method_loop (P : event → Prop) ds refs hyps acc :
  (∀ s, P (EvCompute s refs hyps)) →
  trace_all P
    (for_each ds
       (λ '(scorer, method) ret_scores,
          bind (call_compute_score scorer refs hyps)
            (λ score, store method score ret_scores))
       acc).
Proof.
  intros Hcall. apply trace_all_for_each. intros [scorer method] r.
  apply trace_all_bind; [by apply trace_all_call|]. intros score.
  apply trace_all_store.
Qed.

(** The loops of the two module-level functions. *)
Lemma trace_all_legacy_loop (P : event → Prop) ds refs hyps acc :
  (∀ s, P (EvCompute s refs hyps)) → (∀ s, P (EvClose s)) →
  trace_all P
    (for_each ds
       (λ '(scorer, method) ret_scores,
          bind (call_compute_score scorer refs hyps) (λ score,
          bind (store method score ret_scores) (λ ret_scores,
          bind (if is_meteor scorer then call_close scorer else ret ())
            (λ _, ret ret_scores))))
       acc).
Proof.
  intros Hcall Hclose. apply trace_all_for_each. intros [scorer method] r.
  apply trace_all_bind; [by apply trace_all_call|]. intros score.
  apply trace_all_bind; [apply trace_all_store|]. intros r'.
  apply trace_all_bind; [|intros _; apply trace_all_ret].
  destruct (is_meteor scorer); [by apply trace_all_close|apply trace_all_ret].
Qed.

Lemma trace_all_legacy_print_loop (P : event → Prop) ds refs hyps acc :
  (∀ s, P (EvCompute s refs hyps)) → (∀ s, P (EvClose s)) →
  (∀ name x, P (EvPrint name x)) →
  trace_all P
    (for_each ds
       (λ '(scorer, method) ret_scores,
          bind (call_compute_score scorer refs hyps) (λ score,
          bind (store_print method score ret_scores) (λ ret_scores,
          bind (if is_meteor scorer then call_close scorer else ret ())
            (λ _, ret ret_scores))))
       acc).
Proof.
  intros Hcall Hclose Hprint. apply trace_all_for_each. intros [scorer method] r.
  apply trace_all_bind; [by apply trace_all_call|]. intros score.
  apply trace_all_bind; [by apply trace_all_store_print|]. intros r'.
  apply trace_all_bind; [|intros _; apply trace_all_ret].
  destruct (is_meteor scorer); [by apply trace_all_close|apply trace_all_ret].
Qed.

End Runs.

(** ** What the scorers receive *)

Section Shaping.
Context `{Collaborators}.

Lemma assert_true_bind {B} (k : unit → M B) w : bind (assert_ true) k w = k () w.
Proof. by apply bind_silent. Qed.

Lemma NLGEval_compute_metrics_match self ref_list hyp_list w :
  length hyp_list = length (zip_star ref_list) →
  result (NLGEval_compute_metrics self ref_list hyp_list w) ≠ inl AssertionError.
Proof.
  intros Heq. unfold NLGEval_compute_metrics.
  rewrite sizes_differ, bool_decide_eq_true_2, assert_true_bind by done.
  apply no_assert_for_each. intros [scorer method] r.
  apply no_assert_bind; [apply no_assert_call|]. intros score.
  apply no_assert_store.
Qed.

Lemma compute_metrics_on_lines_match ref_list hyp_list w :
  length hyp_list = length (zip_star ref_list) →
  result (compute_metrics_on_lines hyp_list ref_list w) ≠ inl AssertionError.
Proof.
  intros Heq. unfold compute_metrics_on_lines.
  rewrite sizes_differ, bool_decide_eq_true_2, assert_true_bind by done.
  apply no_assert_bind; [apply no_assert_all_scorers|]. intros ds.
  apply no_assert_for_each. intros [scorer method] r.
  apply no_assert_bind; [apply no_assert_call|]. intros score.
  apply no_assert_bind; [apply no_assert_store_print|]. intros r'.
  apply no_assert_bind; [|intros _; apply no_assert_ret].
  destruct (is_meteor scorer); [apply no_assert_close|apply no_assert_ret].
Qed.

(** C10. The transposition cuts every reference source to the length of
    the shortest one: the number of items is at most the length of each
    source and is the length of one of them, and item [i] exists exactly
    when every source has a position [i], which it then gathers; nothing is
    raised for the positions left out.  The size assertion of batch
    evaluation fails exactly when the number of hypotheses differs from
    this number of items. *)
Theorem transposition_truncates :
  (∀ ls : list (list string), ls ≠ [] →
     (∀ l, l ∈ ls → length (zip_star ls) ≤ length l)
     ∧ (∃ l, l ∈ ls ∧ length (zip_star ls) = length l)
     ∧ (∀ i, zip_star ls !! i = mapM (λ l, l !! i) ls))
  ∧ (∀ self ref_list hyp_list w,
       result (NLGEval_compute_metrics self ref_list hyp_list w) = inl AssertionError
       ↔ length hyp_list ≠ length (zip_star ref_list))
  ∧ (∀ hypothesis references hyp_list ref_list w,
       readlines hypothesis = Some hyp_list →
       Forall2 (λ path lines, readlines path = Some lines) references ref_list →
       result (compute_metrics hypothesis references w) = inl AssertionError
       ↔ length hyp_list ≠ length (zip_star ref_list)).
Proof.
  split; [|split].
  - intros ls Hls. split; [|split].
    + intros l. apply zip_star_length_le.
    + by apply zip_star_length_attained.
    + intros i. by apply zip_star_lookup.
  - intros self ref_list hyp_list w. split.
    + intros Herr Heq.
      by apply (NLGEval_compute_metrics_match self ref_list hyp_list w).
    + intros Hne. by rewrite NLGEval_compute_metrics_mismatch.
  - intros hypothesis references hyp_list ref_list w Hhyp Hrefs.
    rewrite (compute_metrics_read _ _ hyp_list ref_list) by done. split.
    + intros Herr Heq. by apply (compute_metrics_on_lines_match ref_list hyp_list w).
    + intros Hne. by rewrite compute_metrics_on_lines_mismatch.
Qed.

Lemma stored_single ref hyp :
  stored_trimmed [ref] [hyp]
    {[ 0 := PyStr.strip <$> ref ]} {[ 0 := [PyStr.strip hyp] ]}.
Proof.
  split; intros [|i]; simpl.
  - by rewrite lookup_singleton_eq.
  - by rewrite lookup_singleton_ne.
  - by rewrite lookup_singleton_eq.
  - by rewrite lookup_singleton_ne.
Qed.

Lemma stored_batch items hyp_list :
  stored_trimmed items hyp_list
    (enumerate_dict ((λ refs : list string, _strip <$> refs) <$> items))
    (enumerate_dict ((λ lines, [PyStr.strip lines]) <$> hyp_list)).
Proof.
  split; intros i; by rewrite lookup_enumerate_dict, list_lookup_fmap.
Qed.

Lemma every_call_single P ref hyp w :
  P ({[ 0 := PyStr.strip <$> iter_ref
                 match ref with
                 | RStr s => RSeq (PyStr.split "||<|>||" s)
                 | RSeq _ => ref
                 end ]} : alignment)
    ({[ 0 := [PyStr.strip hyp] ]} : alignment) →
  every_call P (trace (compute_individual_metrics ref hyp w)).
Proof.
  intros HP. unfold compute_individual_metrics.
  apply trace_all_bind; [by apply trace_all_all_scorers|]. intros ds.
  by apply trace_all_legacy_loop.
Qed.

Lemma every_call_on_lines P hyp_list ref_list w :
  P (enumerate_dict ((λ refs : list string, _strip <$> refs) <$> zip_star ref_list))
    (enumerate_dict ((λ lines, [PyStr.strip lines]) <$> hyp_list)) →
  every_call P (trace (compute_metrics_on_lines hyp_list ref_list w)).
Proof.
  intros HP. unfold compute_metrics_on_lines.
  apply trace_all_bind; [apply trace_all_assert|]. intros _.
  apply trace_all_bind; [by apply trace_all_all_scorers|]. intros ds.
  by apply trace_all_legacy_print_loop.
Qed.

End Shaping.

(** ** Release of the METEOR scorer *)

Section Lifecycle.
Context `{Collaborators}.

Lemma schedule_app t1 t2 : schedule (t1 ++ t2) = schedule t1 ++ schedule t2.
Proof. apply omap_app. Qed.

Lemma schedule_quiet t : Forall (λ ev, schedule [ev] = []) t → schedule t = [].
Proof.
  induction 1 as [|ev t Hev _ IH]; [done|].
  change (ev :: t) with ([ev] ++ t). by rewrite schedule_app, Hev, IH.
Qed.

Lemma schedule_no_release t s :
  Forall (λ ev, is_release ev = false) t → Release s ∉ schedule t.
Proof.
  induction 1 as [|ev t Hev _ IH]; [by intros ?%elem_of_nil|].
  change (ev :: t) with ([ev] ++ t). rewrite schedule_app, elem_of_app.
  intros [Hin|Hin]; [|done].
  destruct ev; simpl in *; try done;
    first [by apply elem_of_nil in Hin
          | by apply list_elem_of_singleton in Hin].
Qed.

Lemma silent_nil (t : list event) : Forall (λ _, False) t → t = [].
Proof. by destruct 1. Qed.

Lemma reads_silent references acc :
  trace_all (λ _, False)
    (for_each references
       (λ reference ref_list,
          bind (open_readlines reference) (λ lines, ret (ref_list ++ [lines])))
       acc).
Proof.
  apply trace_all_for_each. intros path r.
  apply trace_all_bind; [|intros lines; apply trace_all_ret].
  unfold open_readlines. destruct (readlines path);
    [apply trace_all_ret|apply trace_all_raise].
Qed.

Lemma legacy_turn (st : method → value num → gmap string (value num) → M (gmap string (value num)))
    refs hyps scorer method acc w acc' w' t :
  (∀ m v r, trace_all (λ ev, schedule [ev] = []) (st m v r)) →
  bind (call_compute_score scorer refs hyps) (λ score,
  bind (st method score acc) (λ ret_scores,
  bind (if is_meteor scorer then call_close scorer else ret ())
    (λ _, ret ret_scores))) w = (inr acc', w', t) →
  schedule t = turn (scorer, method).
Proof.
  intros Hst Hrun.
  apply bind_returns_inv in Hrun as (v & w1 & t1 & t2 & Hcall & Hrun & ->).
  apply bind_returns_inv in Hrun as (r & w2 & t3 & t4 & Hstore & Hrun & ->).
  apply bind_returns_inv in Hrun as ([] & w3 & t5 & t6 & Hclose & Hret & ->).
  injection Hret as _ _ <-.
  assert (t1 = [EvCompute scorer refs hyps]) as ->.
  { rewrite <-(trace_call scorer refs hyps w). by rewrite Hcall. }
  assert (schedule t3 = []) as Ht3.
  { apply schedule_quiet. specialize (Hst method v acc w1). by rewrite Hstore in Hst. }
  rewrite !schedule_app, Ht3. unfold turn. simpl.
  destruct (is_meteor scorer); by injection Hclose as _ <-.
Qed.

Lemma loop_schedule {S} (body : descriptor → S → M S) ds acc w r w' t :
  (∀ d acc w acc' w' t, body d acc w = (inr acc', w', t) → schedule t = turn d) →
  for_each ds body acc w = (inr r, w', t) →
  schedule t = ds ≫= turn.
Proof.
  intros Hbody. revert acc w t.
  induction ds as [|d ds IH]; intros acc w t; cbn [for_each].
  - by intros [= _ _ <-].
  - intros (acc1 & w1 & t1 & t2 & Hd & Hrest & ->)%bind_returns_inv.
    rewrite schedule_app, (Hbody _ _ _ _ _ _ Hd), (IH _ _ _ Hrest). done.
Qed.

Lemma compute_individual_metrics_schedule ref hyp w rep w' t :
  compute_individual_metrics ref hyp w = (inr rep, w', t) →
  schedule t
  = [Call (Bleu 4); Call Meteor; Release Meteor; Call Rouge; Call Cider; Call Spice].
Proof.
  unfold compute_individual_metrics.
  intros (ds & w1 & t1 & t2 & Hall & Hloop & ->)%bind_returns_inv.
  injection Hall as <- _ <-.
  apply loop_schedule in Hloop.
  - by rewrite schedule_app, Hloop.
  - intros [scorer method] acc w2 acc' w3 t3.
    apply (legacy_turn store). intros m v r. apply trace_all_store.
Qed.

Lemma compute_metrics_on_lines_schedule hyp_list ref_list w rep w' t :
  compute_metrics_on_lines hyp_list ref_list w = (inr rep, w', t) →
  schedule t
  = [Call (Bleu 4); Call Meteor; Release Meteor; Call Rouge; Call Cider; Call Spice].
Proof.
  unfold compute_metrics_on_lines.
  intros ([] & w0 & t0 & t' & Hassert & Hrun & ->)%bind_returns_inv.
  assert (t0 = []) as ->.
  { destruct (bool_decide _) in Hassert; [|done]. by injection Hassert as _ <-. }
  apply bind_returns_inv in Hrun as (ds & w1 & t1 & t2 & Hall & Hloop & ->).
  injection Hall as <- _ <-.
  apply loop_schedule in Hloop.
  - by rewrite !schedule_app, Hloop.
  - intros [scorer method] acc w2 acc' w3 t3.
    apply (legacy_turn store_print). intros m v r.
    by apply trace_all_store_print.
Qed.

(** C2, as the code has it.  A call of a module-level function that
    returns has called the five scorers in order and released the METEOR
    scorer once, right after its own call; the methods of the evaluator
    never release a scorer. *)
Theorem release_on_normal_return :
  (∀ ref hyp w rep w' t,
     compute_individual_metrics ref hyp w = (inr rep, w', t) →
     schedule t
     = [Call (Bleu 4); Call Meteor; Release Meteor;
        Call Rouge; Call Cider; Call Spice])
  ∧ (∀ hypothesis references w rep w' t,
       compute_metrics hypothesis references w = (inr rep, w', t) →
       schedule t
       = [Call (Bleu 4); Call Meteor; Release Meteor;
          Call Rouge; Call Cider; Call Spice])
  ∧ (∀ self ref hyp w s,
       Release s ∉ schedule (trace (NLGEval_compute_individual_metrics self ref hyp w)))
  ∧ (∀ self ref_list hyp_list w s,
       Release s ∉ schedule (trace (NLGEval_compute_metrics self ref_list hyp_list w))).
Proof.
  split; [|split; [|split]].
  - apply compute_individual_metrics_schedule.
  - intros hypothesis references w rep w' t. unfold compute_metrics.
    intros (hyp_list & w1 & t1 & t2 & Hhyp & Hrun & ->)%bind_returns_inv.
    apply bind_returns_inv in Hrun as (ref_list & w2 & t3 & t4 & Hrefs & Hrun & ->).
    assert (t1 = []) as ->.
    { unfold open_readlines in Hhyp. destruct (readlines hypothesis); [|done].
      by injection Hhyp as _ _ <-. }
    assert (t3 = []) as ->.
    { apply silent_nil.
      pose proof (reads_silent references [] w1) as Hq.
      rewrite Hrefs in Hq. exact Hq. }
    simpl. by apply compute_metrics_on_lines_schedule in Hrun.
  - intros self ref hyp w s. apply schedule_no_release.
    unfold NLGEval_compute_individual_metrics. by apply trace_all_method_loop.
  - intros self ref_list hyp_list w s. apply schedule_no_release.
    unfold NLGEval_compute_metrics.
    apply trace_all_bind; [apply trace_all_assert|]. intros _.
    by apply trace_all_method_loop.
Qed.

End Lifecycle.

(** C2, as stated, fails.  When the METEOR scorer raises inside the
    module-level single-pair function, the error reaches the caller and the
    scorer, constructed and called, is never released; and a call of the
    evaluator's method that returns has called the METEOR scorer without
    releasing it. *)
Lemma release_skipped :
  (let o := @compute_individual_metrics broken_meteor
              (RSeq ["the cat sat on the mat"; "a cat sat"]) "the cat sat" 0 in
   result o = inl (ScorerError ("java process died" : @exn broken_meteor))
   ∧ uses_meteor (trace o) = true
   ∧ releases_meteor (trace o) = false)
  ∧ (let self := {| metrics_to_omit := ∅;
                    scorers := [(Bleu 4, MList ["Bleu_1"; "Bleu_2"; "Bleu_3"; "Bleu_4"]);
                                (Meteor, MName "METEOR")] |} in
     let o := @NLGEval_compute_individual_metrics steady self
                (RSeq ["the cat sat on the mat"; "a cat sat"]) "the cat sat" 0 in
     (∃ rep, result o = inr rep)
     ∧ uses_meteor (trace o) = true
     ∧ releases_meteor (trace o) = false).
Proof.
  split.
  - by vm_compute.
  - split; [|by vm_compute]. eexists. reflexivity.
Qed.

(** ** The report of a single-pair evaluation *)

Section Report.
Context `{Collaborators}.

Lemma dom_store_zip (l : list num) names (acc : gmap string (value num)) :
  length l = length names →
  dom (store_zip l names acc) = dom acc ∪ list_to_set names.
Proof.
  unfold store_zip. revert names acc.
  induction l as [|x l IH]; intros [|name names] acc Hlen; simpl in *; try lia.
  - by rewrite union_empty_r_L.
  - rewrite IH by lia. rewrite dom_insert_L.
    rewrite (comm_L (∪) {[name]} (dom acc)). by rewrite (assoc_L (∪)).
Qed.

Lemma method_turn_returns scorer method refs hyps
    (acc : gmap string (value num)) w :
  honors_contract (scorer, method) →
  ∃ acc',
    returns (bind (call_compute_score scorer refs hyps)
               (λ score, store method score acc)) w acc'
    ∧ dom acc' = dom acc ∪ list_to_set (declared method).
Proof.
  intros Hc. destruct (Hc refs hyps w) as (v & w1 & Hcall & Hshape). simpl in *.
  assert (call_compute_score scorer refs hyps w
          = (inr v, w1, [EvCompute scorer refs hyps])) as Hrun.
  { unfold call_compute_score. by rewrite Hcall. }
  destruct method as [names|name], v as [x|l]; try done.
  - exists (store_zip l names acc). split; [|by apply dom_store_zip].
    eapply returns_bind; [by eexists _, _|]. intros w2. apply returns_ret.
  - exists (<[name := VNum x]> acc). split.
    + eapply returns_bind; [by eexists _, _|]. intros w2. apply returns_ret.
    + simpl. rewrite dom_insert_L, union_empty_r_L. apply (comm_L (∪)).
Qed.

Lemma returns_bind_from {A B} (m : M A) (k : A → M B) w a w1 t1 b :
  m w = (inr a, w1, t1) → returns (k a) w1 b → returns (bind m k) w b.
Proof.
  intros Hm (w2 & t2 & Hk). exists w2, (t1 ++ t2).
  by rewrite (bind_inr _ _ _ _ _ _ Hm), Hk.
Qed.

Lemma method_loop_report ds refs hyps :
  Forall honors_contract ds →
  ∀ (acc : gmap string (value num)) w,
  ∃ rep,
    returns (for_each ds
               (λ '(scorer, method) ret_scores,
                  bind (call_compute_score scorer refs hyps)
                    (λ score, store method score ret_scores))
               acc) w rep
    ∧ dom rep = dom acc ∪ declared_names ds.
Proof.
  induction 1 as [|[scorer method] ds Hd _ IH]; intros acc w.
  - exists acc. split; [apply returns_ret|].
    unfold declared_names. simpl. by rewrite union_empty_r_L.
  - destruct (method_turn_returns scorer method refs hyps acc w Hd)
      as (acc1 & (w1 & t1 & Hturn) & Hdom1).
    destruct (IH acc1 w1) as (rep & Hrest & Hdom).
    exists rep. split.
    + cbn [for_each]. by eapply returns_bind_from.
    + rewrite Hdom, Hdom1. unfold declared_names. simpl.
      by rewrite list_to_set_app_L, (assoc_L (∪)).
Qed.

(** C3. Report completeness: when every scorer of the active list honors
    the scoring contract, single-pair evaluation returns a report whose keys
    are exactly the names the active list declares. *)
Theorem report_completeness self ref hyp w :
  Forall honors_contract (scorers self) →
  ∃ rep,
    returns (NLGEval_compute_individual_metrics self (RSeq ref) hyp) w rep
    ∧ dom rep = declared_names (scorers self).
Proof.
  intros Hall. unfold NLGEval_compute_individual_metrics.
  destruct (method_loop_report (scorers self)
              {[ 0 := PyStr.strip <$> ref ]} {[ 0 := [PyStr.strip hyp] ]}
              Hall ∅ w) as (rep & Hret & Hdom).
  exists rep. split; [done|]. by rewrite Hdom, dom_empty_L, union_empty_l_L.
Qed.

Lemma scalar_metrics_all_omitted : scalar_metrics valid_metrics = [].
Proof. reflexivity. Qed.

(** C7. An evaluator with an empty active list returns the empty report:
    nothing is raised, the world is unchanged and no scorer is called.  The
    active list is empty when every name of the catalog is omitted. *)
Theorem empty_list_empty_report :
  (∀ self ref hyp w,
     scorers self = [] →
     NLGEval_compute_individual_metrics self ref hyp w = (inr ∅, w, []))
  ∧ (∀ l w,
       list_to_set l = valid_metrics →
       returns (NLGEval_init (Some l)) w
         {| metrics_to_omit := valid_metrics; scorers := [] |}).
Proof.
  split.
  - intros self ref hyp w Hempty. unfold NLGEval_compute_individual_metrics.
    by rewrite Hempty.
  - intros l w Hl.
    pose proof (init_returns l w (bleu_tiers (1 - 1) ++ scalar_metrics (list_to_set l)))
      as Hinit.
    rewrite Hl in Hinit. rewrite scalar_metrics_all_omitted in Hinit.
    apply Hinit; [done|]. intros w'.
    rewrite <-scalar_metrics_all_omitted.
    apply (load_scorers_first valid_metrics 1 w'); [lia|].
    split; [by vm_compute|]. intros j Hj. lia.
Qed.

Lemma result_call s refs hyps w :
  result (call_compute_score s refs hyps w)
  = match (compute_score s refs hyps w).1 with
    | inl e => inl (ScorerError e)
    | inr v => inr v
    end.
Proof.
  unfold call_compute_score.
  by destruct (compute_score s refs hyps w) as [[e|v] w'].
Qed.

Lemma result_store m v (acc : gmap string (value num)) w1 w2 :
  result (store m v acc w1) = result (store m v acc w2).
Proof. by destruct m, v. Qed.

Lemma method_loop_deterministic ds refs hyps :
  deterministic_scorers →
  ∀ (acc : gmap string (value num)) w1 w2,
    result (for_each ds
              (λ '(scorer, method) ret_scores,
                 bind (call_compute_score scorer refs hyps)
                   (λ score, store method score ret_scores))
              acc w1)
    = result (for_each ds
                (λ '(scorer, method) ret_scores,
                   bind (call_compute_score scorer refs hyps)
                     (λ score, store method score ret_scores))
                acc w2).
Proof.
  intros Hdet. induction ds as [|[scorer method] ds IH]; intros acc w1 w2; [done|].
  cbn [for_each].
  set (turn1 := bind (call_compute_score scorer refs hyps)
                  (λ score, store method score acc)).
  assert (result (turn1 w1) = result (turn1 w2)) as Hturn.
  { subst turn1.
    rewrite !result_bind, !result_call, (Hdet scorer refs hyps w1 w2).
    destruct (compute_score scorer refs hyps w2).1; [done|]. apply result_store. }
  rewrite !(result_bind turn1), Hturn.
  destruct (result (turn1 w2)); [done|]. apply IH.
Qed.

(** C8. Deterministic scorers give the same result twice: when the outcome
    of every scorer depends on its arguments alone, a second single-pair
    evaluation by the same evaluator on the same input, run in the world the
    first one left, has the result of the first. *)
Theorem repeated_evaluation_identical self ref hyp w :
  deterministic_scorers →
  let first := NLGEval_compute_individual_metrics self ref hyp w in
  let second :=
    NLGEval_compute_individual_metrics self ref hyp (world_after first) in
  result first = result second.
Proof.
  intros Hdet first second. subst first second.
  unfold NLGEval_compute_individual_metrics. by apply method_loop_deterministic.
Qed.

End Report.

(** ** The properties on the sample collaborators *)

Example strip_example :
  PyStr.strip ("  the cat sat " +:+ nl) = "the cat sat"
  ∧ PyStr.strip "   " = EmptyString.
Proof. by vm_compute. Qed.

Example split_example :
  PyStr.split "||<|>||" "a cat ||<|>|| the cat||<|>||"
  = ["a cat "; " the cat"; EmptyString]
  ∧ PyStr.split "||<|>||" EmptyString = [EmptyString]
  ∧ PyStr.split "aa" "aaa" = [EmptyString; "a"].
Proof. by vm_compute. Qed.

Example zip_star_example :
  zip_star [["a"; "b"; "c"]; ["d"; "e"]] = [["a"; "d"]; ["b"; "e"]]
  ∧ zip_star ([] : list (list string)) = [].
Proof. by vm_compute. Qed.

(** Omitting tier 3 and CIDEr keeps tiers 1 and 2 and three scalar metrics. *)
Lemma omission_cascade_witness :
  returns (@NLGEval_init steady (Some ["Bleu_3"; "CIDEr"])) 0
    {| metrics_to_omit := list_to_set ["Bleu_3"; "CIDEr"];
       scorers := [(Bleu 2, MList ["Bleu_1"; "Bleu_2"]);
                   (Meteor, MName "METEOR");
                   (Rouge, MName "ROUGE_L");
                   (Spice, MName "SPICE")] |}.
Proof.
  refine (proj1 (@omission_cascade steady ["Bleu_3"; "CIDEr"] 0 _) 3 _ _).
  - apply valid_omission_size. reflexivity.
  - lia.
  - split.
    + compute_done.
    + intros j Hj. assert (j = 1 ∨ j = 2) as [-> | ->] by lia; compute_done.
Defined.

Lemma unrecognized_omission_rejected_witness :
  @NLGEval_init steady (Some ["Bleu_2"; "CIDER"]) 0 = (inl AssertionError, 0, []).
Proof.
  apply (@unrecognized_omission_rejected steady ["Bleu_2"; "CIDER"] "CIDER" 0).
  - compute_done.
  - compute_done.
Defined.

(** Reference sources of three and two lines align into two items; one
    hypothesis against them fails the assertion. *)
Lemma alignment_size_invariant_witness :
  @NLGEval_compute_metrics steady
    {| metrics_to_omit := ∅; scorers := [(Rouge, MName "ROUGE_L")] |}
    [["the cat sat on the mat"; "a dog barked"; "left over"];
     ["a cat sat"; "the dog"]]
    ["the cat sat"] 0
  = (inl AssertionError, 0, []).
Proof.
  apply (proj1 (@alignment_size_invariant steady)). simpl. lia.
Defined.

Lemma transposition_truncates_witness :
  let ls := [["the cat sat on the mat"; "a dog barked"; "left over"];
             ["a cat sat"; "the dog"]] in
  (∀ l, l ∈ ls → length (zip_star ls) ≤ length l)
  ∧ (∃ l, l ∈ ls ∧ length (zip_star ls) = length l)
  ∧ (∀ i, zip_star ls !! i = mapM (λ l, l !! i) ls).
Proof.
  intros ls. apply (proj1 (@transposition_truncates steady) ls). done.
Defined.

Lemma release_on_normal_return_witness :
  schedule
    (trace (@compute_individual_metrics steady
              (RStr "the cat sat on the mat||<|>||a cat sat") "the cat sat" 0))
  = [Call (Bleu 4); Call Meteor; Release Meteor;
     Call Rouge; Call Cider; Call Spice].
Proof.
  eapply (proj1 (@release_on_normal_return steady)
            (RStr "the cat sat on the mat||<|>||a cat sat") "the cat sat" 0).
  reflexivity.
Defined.

Lemma steady_honors_contract n names :
  length names = n → @honors_contract steady (Bleu n, MList names).
Proof.
  intros Hn refs hyps w. eexists _, _. split; [reflexivity|].
  simpl. by rewrite length_replicate.
Qed.

(** The scenario of the specification: tiers 1 and 2 and one scalar metric
    give a report with exactly three keys. *)
Lemma report_completeness_witness :
  ∃ rep,
    returns
      (@NLGEval_compute_individual_metrics steady
         {| metrics_to_omit := list_to_set ["Bleu_3"; "METEOR"; "CIDEr"; "SPICE"];
            scorers := [(Bleu 2, MList ["Bleu_1"; "Bleu_2"]);
                        (Rouge, MName "ROUGE_L")] |}
         (RSeq ["the cat sat on the mat"; "a cat sat"]) "the cat sat")
      0 rep
    ∧ dom rep = list_to_set ["Bleu_1"; "Bleu_2"; "ROUGE_L"].
Proof.
  apply (@report_completeness steady).
  repeat constructor.
  - by apply steady_honors_contract.
  - intros refs hyps w. by eexists _, _.
Defined.

Lemma empty_list_empty_report_witness :
  @NLGEval_compute_individual_metrics steady
    {| metrics_to_omit := valid_metrics; scorers := [] |}
    (RSeq ["the cat sat on the mat"; "a cat sat"]) "the cat sat" 0
  = (inr ∅, 0, []).
Proof. apply (proj1 (@empty_list_empty_report steady)). reflexivity. Defined.

Lemma steady_deterministic : @deterministic_scorers steady.
Proof. by intros s refs hyps w1 w2. Qed.

Lemma repeated_evaluation_identical_witness :
  let self := {| metrics_to_omit := ∅;
                 scorers := [(Bleu 2, MList ["Bleu_1"; "Bleu_2"]);
                             (Meteor, MName "METEOR")] |} in
  let ref := RSeq ["the cat sat on the mat"; "a cat sat"] in
  let first := @NLGEval_compute_individual_metrics steady self ref "the cat sat" 0 in
  let second :=
    @NLGEval_compute_individual_metrics steady self ref "the cat sat"
      (world_after first) in
  result first = result second.
Proof.
  intros self ref.
  apply (@repeated_evaluation_identical steady self ref "the cat sat" 0).
  apply steady_deterministic.
Defined.

(** * Further properties *)

(** ** Files that cannot be read *)

Section Files.
Context `{Collaborators}.

Lemma read_fails references path acc w :
  path ∈ references → readlines path = None →
  for_each references
    (λ reference ref_list,
       bind (open_readlines reference) (λ lines, ret (ref_list ++ [lines])))
    acc w
  = (inl IOError, w, []).
Proof.
  intros Hin Hnone. revert acc.
  induction references as [|p references IH]; intros acc;
    [by apply elem_of_nil in Hin|].
  cbn [for_each]. destruct (readlines p) as [lines|] eqn:Hp.
  - rewrite (bind_silent _ _ w (acc ++ [lines])).
    + apply IH. apply elem_of_cons in Hin as [->|Hin]; [congruence|done].
    + unfold open_readlines. by rewrite Hp.
  - apply bind_inl. apply bind_inl. unfold open_readlines. by rewrite Hp.
Qed.

(** X1. The module-level [compute_metrics] reads every file before it does
    anything else: a hypothesis file or a reference file that cannot be
    opened makes the call raise the input error with no scorer constructed
    or called, and nothing printed. *)
Theorem unreadable_file_raises :
  (∀ hypothesis references w,
     readlines hypothesis = None →
     compute_metrics hypothesis references w = (inl IOError, w, []))
  ∧ (∀ hypothesis references hyp_list path w,
       readlines hypothesis = Some hyp_list →
       path ∈ references → readlines path = None →
       compute_metrics hypothesis references w = (inl IOError, w, [])).
Proof.
  split.
  - intros hypothesis references w Hnone. unfold compute_metrics.
    apply bind_inl. unfold open_readlines. by rewrite Hnone.
  - intros hypothesis references hyp_list path w Hhyp Hin Hnone.
    unfold compute_metrics.
    rewrite (bind_silent _ _ w hyp_list)
      by (unfold open_readlines; by rewrite Hhyp).
    apply bind_inl. by apply (read_fails references path).
Qed.

End Files.

Lemma unreadable_file_raises_witness :
  @compute_metrics steady "hyp.txt" ["ref1.txt"; "missing.txt"] 0
  = (inl IOError, 0, []).
Proof.
  apply (proj2 (@unreadable_file_raises steady) "hyp.txt"
           ["ref1.txt"; "missing.txt"]
           [" the cat sat" +:+ nl; "a dog" +:+ nl] "missing.txt" 0).
  - reflexivity.
  - right. left.
  - reflexivity.
Defined.

(** ** The order of the calls *)

Section Order.
Context `{Collaborators}.

Lemma bind_assoc {A B C} (m : M A) (k : A → M B) (k' : B → M C) w :
  bind (bind m k) k' w = bind m (λ a, bind (k a) k') w.
Proof.
  unfold bind. destruct (m w) as [[[e|a] w1] t1]; [done|].
  destruct (k a w1) as [[[e|b] w2] t2]; [done|].
  destruct (k' b w2) as [[r w3] t3]. by rewrite app_assoc.
Qed.

Lemma bind_ext {A B} (m : M A) (k k' : A → M B) w :
  (∀ a w1, k a w1 = k' a w1) → bind m k w = bind m k' w.
Proof.
  intros Hk. unfold bind. destruct (m w) as [[[e|a] w1] t1]; [done|].
  by rewrite Hk.
Qed.

Lemma for_each_app {A S} (l1 l2 : list A) (body : A → S → M S) s w :
  for_each (l1 ++ l2) body s w = bind (for_each l1 body s) (for_each l2 body) w.
Proof.
  revert s w. induction l1 as [|x l1 IH]; intros s w; simpl.
  - symmetry. by apply bind_silent.
  - rewrite bind_assoc. apply bind_ext. intros s' w1. apply IH.
Qed.

Lemma store_trace m score (acc : gmap string (value num)) w :
  trace (store m score acc w) = [].
Proof. by destruct m, score. Qed.

Lemma method_turn_trace s m refs hyps (acc : gmap string (value num)) w :
  trace (bind (call_compute_score s refs hyps)
           (λ score, store m score acc) w)
  = [EvCompute s refs hyps].
Proof.
  rewrite trace_bind, trace_call. destruct (result _); [done|].
  by rewrite store_trace.
Qed.

Lemma method_loop_trace (ds : list descriptor) refs hyps
    (acc : gmap string (value num)) w :
  let o := for_each ds
             (λ '(scorer, method) ret_scores,
                bind (call_compute_score scorer refs hyps)
                  (λ score, store method score ret_scores))
             acc w in
  ∃ k, k ≤ length ds
       ∧ trace o = calls_of (take k ds) refs hyps
       ∧ (∀ rep, result o = inr rep → k = length ds)
       ∧ (∀ e, result o = inl e → 0 < k).
Proof.
  revert acc w. induction ds as [|[s m] ds IH]; intros acc w; cbn zeta.
  - exists 0. by repeat split.
  - cbn [for_each].
    set (turn1 := bind (call_compute_score s refs hyps)
                    (λ score, store m score acc)).
    pose proof (method_turn_trace s m refs hyps acc w) as Ht. fold turn1 in Ht.
    rewrite (trace_bind turn1), (result_bind turn1), Ht.
    destruct (result (turn1 w)) as [e|acc1].
    + exists 1. simpl. split; [lia|]. split; [done|].
      split; [by intros ?|intros; lia].
    + destruct (IH acc1 (world_after (turn1 w)))
        as (k & Hk & Htrace & Hret & Herr).
      exists (S k). simpl. rewrite Htrace. split; [lia|]. split; [done|].
      split; [|intros; lia].
      intros rep Hrep. f_equal. by apply (Hret rep).
Qed.

(** X2. The methods of the evaluator call the scorers of the active list one
    after the other, in the order of the list and with the same two
    dictionaries, and do nothing else that leaves a trace: nothing is
    constructed, printed or released.  A call that returns has called every
    scorer exactly once; a call that raises stopped at the scorer that
    failed. *)
Theorem method_calls_in_order :
  (∀ self ref hyp w,
     let o := NLGEval_compute_individual_metrics self ref hyp w in
     ∃ k, k ≤ length (scorers self)
          ∧ trace o
            = calls_of (take k (scorers self))
                {[ 0 := PyStr.strip <$> iter_ref ref ]}
                {[ 0 := [PyStr.strip hyp] ]}
          ∧ (∀ rep, result o = inr rep → k = length (scorers self))
          ∧ (∀ e, result o = inl e → 0 < k))
  ∧ (∀ self ref_list hyp_list w,
       length hyp_list = length (zip_star ref_list) →
       let o := NLGEval_compute_metrics self ref_list hyp_list w in
       ∃ k, k ≤ length (scorers self)
            ∧ trace o
              = calls_of (take k (scorers self))
                  (enumerate_dict
                     ((λ refs : list string, PyStr.strip <$> refs)
                        <$> zip_star ref_list))
                  (enumerate_dict ((λ h, [PyStr.strip h]) <$> hyp_list))
            ∧ (∀ rep, result o = inr rep → k = length (scorers self))
            ∧ (∀ e, result o = inl e → 0 < k)).
Proof.
  split.
  - intros self ref hyp w. apply method_loop_trace.
  - intros self ref_list hyp_list w Hlen. unfold NLGEval_compute_metrics.
    rewrite sizes_differ, bool_decide_eq_true_2, assert_true_bind by done.
    apply method_loop_trace.
Qed.

Lemma method_loop_honored ds refs hyps :
  Forall honors_contract ds →
  ∀ (acc : gmap string (value num)) w,
  ∃ rep w',
    for_each ds
      (λ '(scorer, method) ret_scores,
         bind (call_compute_score scorer refs hyps)
           (λ score, store method score ret_scores))
      acc w
    = (inr rep, w', calls_of ds refs hyps).
Proof.
  intros Hall acc w.
  destruct (method_loop_report ds refs hyps Hall acc w)
    as (rep & (w' & t & Hrun) & _).
  pose proof (method_loop_trace ds refs hyps acc w) as Hshape.
  cbn zeta in Hshape. destruct Hshape as (k & _ & Htrace & Hret & _).
  rewrite Hrun in Htrace, Hret. rewrite (Hret rep eq_refl), firstn_all in Htrace.
  exists rep, w'. rewrite Hrun. f_equal. exact Htrace.
Qed.

(** X3. The first scorer that raises ends the evaluation: when the scorers
    before it honor the contract, the call raises that scorer's error, the
    scorers up to and including it were called once each, and none of the
    scorers after it is called. *)
Theorem first_failure_aborts self pre s m post e ref hyp w :
  scorers self = pre ++ (s, m) :: post →
  Forall honors_contract pre →
  always_raises s e →
  let o := NLGEval_compute_individual_metrics self ref hyp w in
  result o = inl (ScorerError e)
  ∧ trace o
    = calls_of (pre ++ [(s, m)])
        {[ 0 := PyStr.strip <$> iter_ref ref ]} {[ 0 := [PyStr.strip hyp] ]}.
Proof.
  intros Hds Hpre Hraise. cbn zeta. unfold NLGEval_compute_individual_metrics.
  rewrite Hds, for_each_app.
  destruct (method_loop_honored pre {[ 0 := PyStr.strip <$> iter_ref ref ]}
              {[ 0 := [PyStr.strip hyp] ]} Hpre ∅ w) as (acc1 & w1 & Hrun).
  rewrite (bind_inr _ _ _ _ _ _ Hrun). cbn [for_each].
  destruct (Hraise {[ 0 := PyStr.strip <$> iter_ref ref ]}
              {[ 0 := [PyStr.strip hyp] ]} w1) as (w2 & Hs).
  assert (call_compute_score s {[ 0 := PyStr.strip <$> iter_ref ref ]}
            {[ 0 := [PyStr.strip hyp] ]} w1
          = (inl (ScorerError e), w2,
             [EvCompute s {[ 0 := PyStr.strip <$> iter_ref ref ]}
                {[ 0 := [PyStr.strip hyp] ]}])) as Hcall.
  { unfold call_compute_score. by rewrite Hs. }
  rewrite (bind_inl _ _ w1 (ScorerError e) w2
             [EvCompute s {[ 0 := PyStr.strip <$> iter_ref ref ]}
                {[ 0 := [PyStr.strip hyp] ]}]).
  - split; [done|]. unfold trace, calls_of. simpl. by rewrite fmap_app.
  - by apply bind_inl.
Qed.

End Order.

Lemma method_calls_in_order_witness :
  trace (@NLGEval_compute_metrics steady
           {| metrics_to_omit := list_to_set ["Bleu_3"; "METEOR"; "CIDEr"; "SPICE"];
              scorers := [(Bleu 2, MList ["Bleu_1"; "Bleu_2"]);
                          (Rouge, MName "ROUGE_L")] |}
           [["the cat sat on the mat"; "a dog barked"]; ["a cat sat"; "the dog"]]
           ["the cat sat"; "a dog"] 0)
  = [EvCompute (Bleu 2)
       {[ 0 := ["the cat sat on the mat"; "a cat sat"];
          1 := ["a dog barked"; "the dog"] ]}
       {[ 0 := ["the cat sat"]; 1 := ["a dog"] ]};
     EvCompute Rouge
       {[ 0 := ["the cat sat on the mat"; "a cat sat"];
          1 := ["a dog barked"; "the dog"] ]}
       {[ 0 := ["the cat sat"]; 1 := ["a dog"] ]}].
Proof.
  destruct (proj2 (@method_calls_in_order steady)
              {| metrics_to_omit := list_to_set ["Bleu_3"; "METEOR"; "CIDEr"; "SPICE"];
                 scorers := [(Bleu 2, MList ["Bleu_1"; "Bleu_2"]);
                             (Rouge, MName "ROUGE_L")] |}
              [["the cat sat on the mat"; "a dog barked"]; ["a cat sat"; "the dog"]]
              ["the cat sat"; "a dog"] 0 eq_refl)
    as (k & _ & Htrace & Hret & _).
  rewrite Htrace, (Hret _ eq_refl). reflexivity.
Defined.

Lemma broken_meteor_raises :
  @always_raises broken_meteor Meteor ("java process died" : @exn broken_meteor).
Proof. intros refs hyps w. by eexists. Qed.

Lemma broken_bleu_honors n names :
  length names = n → @honors_contract broken_meteor (Bleu n, MList names).
Proof.
  intros Hn refs hyps w. eexists _, _. split; [reflexivity|].
  simpl. by rewrite length_replicate.
Qed.

Lemma first_failure_aborts_witness :
  let self := {| metrics_to_omit := ∅;
                 scorers := [(Bleu 4, MList ["Bleu_1"; "Bleu_2"; "Bleu_3"; "Bleu_4"]);
                             (Meteor, MName "METEOR");
                             (Rouge, MName "ROUGE_L")] |} in
  let o := @NLGEval_compute_individual_metrics broken_meteor self
             (RSeq ["a cat sat"]) "the cat sat" 0 in
  result o = inl (ScorerError ("java process died" : @exn broken_meteor))
  ∧ trace o
    = calls_of [(Bleu 4, MList ["Bleu_1"; "Bleu_2"; "Bleu_3"; "Bleu_4"]);
                (Meteor, MName "METEOR")]
        {[ 0 := ["a cat sat"] ]} {[ 0 := ["the cat sat"] ]}.
Proof.
  intros self.
  apply (@first_failure_aborts broken_meteor self
           [(Bleu 4, MList ["Bleu_1"; "Bleu_2"; "Bleu_3"; "Bleu_4"])]
           Meteor (MName "METEOR") [(Rouge, MName "ROUGE_L")]).
  - reflexivity.
  - repeat constructor. by apply broken_bleu_honors.
  - apply broken_meteor_raises.
Defined.

(** ** What construction builds *)

Section Construction.
Context `{Collaborators}.

Lemma returns_unique {A} (m : M A) w a b : returns m w a → returns m w b → a = b.
Proof. intros (? & ? & Ha) (? & ? & Hb). congruence. Qed.

Lemma first_omitted_or_none (omit : gset string) :
  (∃ i, 1 ≤ i ≤ 4 ∧ first_omitted omit i)
  ∨ (∀ j, 1 ≤ j ≤ 4 → bleu_name j ∉ omit).
Proof.
  destruct (decide (bleu_name 1 ∈ omit)) as [?|H1].
  { left. exists 1. split; [lia|]. split; [done|]. intros j ?. lia. }
  destruct (decide (bleu_name 2 ∈ omit)) as [?|H2].
  { left. exists 2. split; [lia|]. split; [done|]. intros j ?.
    by replace j with 1 by lia. }
  destruct (decide (bleu_name 3 ∈ omit)) as [?|H3].
  { left. exists 3. split; [lia|]. split; [done|]. intros j ?.
    assert (j = 1 ∨ j = 2) as [-> | ->] by lia; done. }
  destruct (decide (bleu_name 4 ∈ omit)) as [?|H4].
  { left. exists 4. split; [lia|]. split; [done|]. intros j ?.
    assert (j = 1 ∨ j = 2 ∨ j = 3) as [-> | [-> | ->]] by lia; done. }
  right. intros j ?.
  assert (j = 1 ∨ j = 2 ∨ j = 3 ∨ j = 4) as [-> | [-> | [-> | ->]]] by lia; done.
Qed.

(** The active list keeps the tiers below the first omitted one. *)
Lemma load_scorers_shape omit w ds :
  returns (load_scorers omit) w ds →
  ∃ k, k ≤ 4
       ∧ (∀ i, 1 ≤ i ≤ k → bleu_name i ∉ omit)
       ∧ (k < 4 → bleu_name (S k) ∈ omit)
       ∧ ds = bleu_tiers k ++ scalar_metrics omit.
Proof.
  intros Hret. destruct (first_omitted_or_none omit) as [(i & Hi & Hfirst)|Hnone].
  - exists (i - 1). split; [lia|]. destruct Hfirst as [Hin Hlow].
    split; [intros j ?; apply Hlow; lia|].
    split; [intros _; by replace (S (i - 1)) with i by lia|].
    apply (returns_unique _ _ _ _ Hret). by apply load_scorers_first.
  - exists 4. split; [lia|]. split; [done|]. split; [lia|].
    apply (returns_unique _ _ _ _ Hret). by apply load_scorers_none.
Qed.

Lemma init_inv arg w self w' t :
  NLGEval_init arg w = (inr self, w', t) →
  metrics_to_omit self = omission_set arg
  ∧ omission_set arg ⊆ valid_metrics
  ∧ load_scorers (omission_set arg) w = (inr (scorers self), w', t).
Proof.
  unfold NLGEval_init. fold (omission_set arg).
  intros ([] & w1 & t1 & t2 & Hassert & Hrun & ->)%bind_returns_inv.
  apply bind_returns_inv in Hrun as (ds & w2 & t3 & t4 & Hload & Hret & ->).
  injection Hret as <- <- <-.
  destruct (bool_decide _) eqn:Hvalid in Hassert; [|done].
  injection Hassert as <- <-. simpl. rewrite app_nil_r.
  split; [done|]. split; [|done].
  apply valid_omission_size. by apply bool_decide_eq_true in Hvalid.
Qed.

Lemma declared_bleu_tiers k :
  bleu_tiers k ≫= (λ d, declared d.2) = bleu_name <$> seq 1 k.
Proof. destruct k; [done|]. simpl. by rewrite app_nil_r. Qed.

Lemma elem_of_scalar_entry omit cls n name :
  name ∈ (scalar_entry omit cls n ≫= λ d, declared d.2) ↔ name = n ∧ n ∉ omit.
Proof.
  unfold scalar_entry. destruct (decide (n ∈ omit)) as [Hin|Hout]; simpl.
  - split; [by intros ?%elem_of_nil|by intros [_ ?]].
  - rewrite list_elem_of_singleton. split; [by intros ->|by intros [-> _]].
Qed.

Lemma elem_of_scalar_metrics omit name :
  name ∈ (scalar_metrics omit ≫= λ d, declared d.2)
  ↔ name ∈ scalar_names ∧ name ∉ omit.
Proof.
  unfold scalar_metrics, scalar_names.
  rewrite !bind_app, !elem_of_app, !elem_of_scalar_entry.
  rewrite !elem_of_cons, elem_of_nil. split.
  - intros [[-> ?]|[[-> ?]|[[-> ?]|[-> ?]]]]; split; auto 10.
  - intros [[->|[->|[->|[->|[]]]]] ?]; auto 10.
Qed.

(** X4. The names of a constructed evaluator: a scalar metric is declared
    exactly when it is not omitted, and tier [j] of Bleu exactly when no
    tier from 1 to [j] is omitted; so no omitted name is ever declared. *)
Theorem reported_names arg w self :
  returns (NLGEval_init arg) w self →
  ∀ name,
    name ∈ declared_names (scorers self)
    ↔ (name ∈ scalar_names ∧ name ∉ metrics_to_omit self)
      ∨ (∃ j, 1 ≤ j ≤ 4 ∧ name = bleu_name j
              ∧ ∀ i, 1 ≤ i ≤ j → bleu_name i ∉ metrics_to_omit self).
Proof.
  intros (w' & t & Hinit) name.
  apply init_inv in Hinit as (-> & _ & Hload).
  destruct (load_scorers_shape (omission_set arg) w (scorers self))
    as (k & Hk & Hkept & Hcut & ->); [by eexists _, _|].
  unfold declared_names.
  rewrite elem_of_list_to_set, bind_app, elem_of_app, declared_bleu_tiers.
  rewrite elem_of_scalar_metrics, list_elem_of_fmap.
  split.
  - intros [(j & -> & Hj%elem_of_seq)|Hscalar]; [|by left].
    right. exists j. split; [lia|]. split; [done|].
    intros i Hi. apply Hkept. lia.
  - intros [Hscalar|(j & Hj & -> & Hnone)]; [by right|].
    left. exists j. split; [done|]. apply elem_of_seq.
    destruct (decide (j ≤ k)) as [|Hgt]; [lia|].
    exfalso. apply (Hnone (S k)); [lia|]. apply Hcut. lia.
Qed.

Lemma all_names_NoDup : NoDup ((bleu_name <$> seq 1 4) ++ scalar_names).
Proof. compute_done. Qed.

Lemma scalar_entry_sublist omit cls n :
  (scalar_entry omit cls n ≫= λ d, declared d.2) `sublist_of` [n].
Proof. unfold scalar_entry. case_decide; [apply sublist_nil_l|done]. Qed.

Lemma scalar_metrics_sublist omit :
  (scalar_metrics omit ≫= λ d, declared d.2) `sublist_of` scalar_names.
Proof.
  unfold scalar_metrics. rewrite !bind_app.
  change scalar_names with (["METEOR"] ++ ["ROUGE_L"] ++ ["CIDEr"] ++ ["SPICE"]).
  repeat apply sublist_app; apply scalar_entry_sublist.
Qed.

Lemma scalar_metrics_well_formed omit : Forall well_formed (scalar_metrics omit).
Proof.
  unfold scalar_metrics, scalar_entry.
  repeat case_decide; simpl; repeat constructor.
Qed.

(** X5. Every descriptor of a constructed evaluator pairs [Bleu n] with the [n]
    names of tiers 1 to [n] (with [n] between 1 and 4) or a scalar scorer
    with its own name, and no name is declared twice. *)
Theorem constructed_descriptors_well_formed arg w self :
  returns (NLGEval_init arg) w self →
  Forall well_formed (scorers self)
  ∧ NoDup (scorers self ≫= λ d, declared d.2).
Proof.
  intros (w' & t & Hinit).
  apply init_inv in Hinit as (_ & _ & Hload).
  destruct (load_scorers_shape (omission_set arg) w (scorers self))
    as (k & Hk & _ & _ & ->); [by eexists _, _|].
  split.
  - apply Forall_app. split; [|apply scalar_metrics_well_formed].
    destruct k; [constructor|].
    apply Forall_cons. split; [|constructor]. split; [lia|reflexivity].
  - rewrite bind_app, declared_bleu_tiers.
    eapply sublist_NoDup; [apply all_names_NoDup|].
    apply sublist_app; [|apply scalar_metrics_sublist].
    replace 4 with (k + (4 - k)) by lia.
    rewrite seq_app, fmap_app. apply sublist_inserts_r. done.
Qed.

End Construction.

Section ConstructionTrace.
Context `{Collaborators}.

Lemma load_bleu_built omit todo acc w acc' b w' t :
  load_bleu omit todo acc w = (inr (acc', b), w', t) →
  ∃ extra,
    acc' = acc ++ extra ∧ t = EvNew <$> extra.*1
    ∧ w' = foldl (λ w s, new_scorer s w) w extra.*1.
Proof.
  induction todo as [|i todo IH]; simpl.
  - intros [= <- _ <- <-]. exists []. by rewrite app_nil_r.
  - case_decide; [|done]. case_decide.
    + intros [= <- _ <- <-]. by eexists [_].
    + intros [= <- _ <- <-]. exists []. by rewrite app_nil_r.
Qed.

Lemma load_scalar_built omit cls name acc w acc' w' t :
  load_scalar omit cls name acc w = (inr acc', w', t) →
  ∃ extra,
    acc' = acc ++ extra ∧ t = EvNew <$> extra.*1
    ∧ w' = foldl (λ w s, new_scorer s w) w extra.*1.
Proof.
  unfold load_scalar. case_decide.
  - intros [= <- <- <-]. by eexists [_].
  - intros [= <- <- <-]. exists []. by rewrite app_nil_r.
Qed.

Lemma load_scorers_built omit w ds w' t :
  load_scorers omit w = (inr ds, w', t) →
  t = EvNew <$> ds.*1 ∧ w' = foldl (λ w s, new_scorer s w) w ds.*1.
Proof.
  unfold load_scorers.
  intros ([acc0 b] & w0 & t0 & t0' & Hbleu & Hrun & ->)%bind_returns_inv.
  apply bind_returns_inv in Hrun as (acc1 & w1 & t1 & t1' & Hfull & Hrun & ->).
  apply bind_returns_inv in Hrun as (acc2 & w2 & t2 & t2' & Hm & Hrun & ->).
  apply bind_returns_inv in Hrun as (acc3 & w3 & t3 & t3' & Hr & Hrun & ->).
  apply bind_returns_inv in Hrun as (acc4 & w4 & t4 & t4' & Hc & Hs & ->).
  apply load_bleu_built in Hbleu as (e0 & -> & -> & ->).
  assert (∃ e1, acc1 = ([] ++ e0) ++ e1 ∧ t1 = EvNew <$> e1.*1
                ∧ w1 = foldl (λ w s, new_scorer s w)
                         (foldl (λ w s, new_scorer s w) w e0.*1) e1.*1)
    as (e1 & -> & -> & ->).
  { destruct b; simpl in Hfull.
    - injection Hfull as <- <- <-. exists []. by rewrite app_nil_r.
    - injection Hfull as <- <- <-. by eexists [_]. }
  apply load_scalar_built in Hm as (e2 & -> & -> & ->).
  apply load_scalar_built in Hr as (e3 & -> & -> & ->).
  apply load_scalar_built in Hc as (e4 & -> & -> & ->).
  apply load_scalar_built in Hs as (e5 & -> & -> & ->).
  simpl. by rewrite !fmap_app, !foldl_app, !app_assoc.
Qed.

(** X6. Construction builds one scorer object per descriptor of the active
    list, in the order of the list, and does nothing else: no scorer is
    constructed for a metric that is left out, and none is called. *)
Theorem construction_builds_active_list arg w self w' t :
  NLGEval_init arg w = (inr self, w', t) →
  t = EvNew <$> (scorers self).*1
  ∧ w' = foldl (λ w s, new_scorer s w) w (scorers self).*1.
Proof.
  intros (_ & _ & Hload)%init_inv. by eapply load_scorers_built.
Qed.

End ConstructionTrace.

Lemma construction_witness :
  @NLGEval_init steady (Some ["Bleu_3"; "METEOR"; "Bleu_4"]) 0
  = (inr {| metrics_to_omit := list_to_set ["Bleu_3"; "METEOR"; "Bleu_4"];
            scorers := [(Bleu 2, MList ["Bleu_1"; "Bleu_2"]);
                        (Rouge, MName "ROUGE_L");
                        (Cider, MName "CIDEr");
                        (Spice, MName "SPICE")] |},
     0, [EvNew (Bleu 2); EvNew Rouge; EvNew Cider; EvNew Spice]).
Proof. reflexivity. Qed.

Lemma construction_builds_active_list_witness :
  trace (@NLGEval_init steady (Some ["Bleu_3"; "METEOR"; "Bleu_4"]) 0)
  = @EvNew steady <$> [Bleu 2; Rouge; Cider; Spice]
  ∧ 0 = foldl (λ w s, @new_scorer steady s w) 0 [Bleu 2; Rouge; Cider; Spice].
Proof.
  exact (@construction_builds_active_list steady _ _ _ _ _ construction_witness).
Defined.

Lemma reported_names_witness :
  "Bleu_2" ∈ declared_names [(Bleu 2, MList ["Bleu_1"; "Bleu_2"]);
                             (Rouge, MName "ROUGE_L");
                             (Cider, MName "CIDEr");
                             (Spice, MName "SPICE")]
  ↔ ("Bleu_2" ∈ scalar_names
     ∧ "Bleu_2" ∉ (list_to_set ["Bleu_3"; "METEOR"; "Bleu_4"] : gset string))
    ∨ (∃ j, 1 ≤ j ≤ 4 ∧ "Bleu_2" = bleu_name j
            ∧ ∀ i, 1 ≤ i ≤ j →
                   bleu_name i ∉ (list_to_set ["Bleu_3"; "METEOR"; "Bleu_4"]
                                  : gset string)).
Proof.
  refine (@reported_names steady (Some ["Bleu_3"; "METEOR"; "Bleu_4"]) 0
            {| metrics_to_omit := list_to_set ["Bleu_3"; "METEOR"; "Bleu_4"];
               scorers := [(Bleu 2, MList ["Bleu_1"; "Bleu_2"]);
                           (Rouge, MName "ROUGE_L");
                           (Cider, MName "CIDEr");
                           (Spice, MName "SPICE")] |} _ "Bleu_2").
  eexists _, _. apply construction_witness.
Defined.

Lemma constructed_descriptors_well_formed_witness :
  Forall well_formed [(Bleu 2, MList ["Bleu_1"; "Bleu_2"]);
                      (Rouge, MName "ROUGE_L");
                      (Cider, MName "CIDEr");
                      (Spice, MName "SPICE")]
  ∧ NoDup ["Bleu_1"; "Bleu_2"; "ROUGE_L"; "CIDEr"; "SPICE"].
Proof.
  apply (@constructed_descriptors_well_formed steady
           (Some ["Bleu_3"; "METEOR"; "Bleu_4"]) 0
           {| metrics_to_omit := list_to_set ["Bleu_3"; "METEOR"; "Bleu_4"];
              scorers := [(Bleu 2, MList ["Bleu_1"; "Bleu_2"]);
                          (Rouge, MName "ROUGE_L");
                          (Cider, MName "CIDEr");
                          (Spice, MName "SPICE")] |}).
  eexists _, _. apply construction_witness.
Defined.

(** ** The values of the report *)

Section Values.
Context `{Collaborators}.

Lemma store_zip_cons x (l : list num) n names (acc : gmap string (value num)) :
  store_zip (x :: l) (n :: names) acc = store_zip l names (<[n := VNum x]> acc).
Proof. reflexivity. Qed.

Lemma store_zip_lookup_other (l : list num) names
    (acc : gmap string (value num)) n :
  n ∉ names → store_zip l names acc !! n = acc !! n.
Proof.
  revert names acc. induction l as [|x l IH]; intros [|m names] acc Hn; try done.
  rewrite store_zip_cons, IH by (intros ?; apply Hn; by right).
  apply lookup_insert_ne. intros ->. apply Hn. left.
Qed.

Lemma store_zip_lookup (l : list num) names (acc : gmap string (value num)) i name :
  NoDup names → names !! i = Some name →
  store_zip l names acc !! name
  = match l !! i with Some x => Some (VNum x) | None => acc !! name end.
Proof.
  revert names acc i.
  induction l as [|x l IH]; intros [|n names] acc i Hnodup Hi; try done.
  apply NoDup_cons in Hnodup as [Hn Hnodup]. rewrite store_zip_cons.
  destruct i as [|i]; simpl in *.
  - injection Hi as ->. rewrite store_zip_lookup_other by done.
    apply lookup_insert_eq.
  - rewrite (IH names _ i) by done. destruct (l !! i); [done|].
    apply lookup_insert_ne. intros ->. apply Hn.
    by apply list_elem_of_lookup_2 in Hi.
Qed.

Lemma dom_store_zip_take (l : list num) names (acc : gmap string (value num)) :
  dom (store_zip l names acc) = dom acc ∪ list_to_set (take (length l) names).
Proof.
  revert names acc. induction l as [|x l IH]; intros [|n names] acc; simpl;
    try by rewrite union_empty_r_L.
  rewrite store_zip_cons, IH, dom_insert_L.
  rewrite (comm_L (∪) {[n]} (dom acc)). by rewrite (assoc_L (∪)).
Qed.

(** X7. The scores of a vector metric are paired with its names position by
    position, up to the end of the shorter sequence: the report gains the
    first [length score] names and, the names being distinct, name [i] maps
    to score [i]; a name beyond the scores returned keeps whatever the
    report held, and scores beyond the names are dropped.  A score that is
    not a sequence raises the type error. *)
Theorem vector_scores_zip_names (l : list num) names
    (acc : gmap string (value num)) w :
  store (MList names) (VList l) acc w = (inr (store_zip l names acc), w, [])
  ∧ dom (store_zip l names acc) = dom acc ∪ list_to_set (take (length l) names)
  ∧ (NoDup names →
     ∀ i name, names !! i = Some name →
       store_zip l names acc !! name
       = match l !! i with Some x => Some (VNum x) | None => acc !! name end)
  ∧ (∀ x, store (MList names) (VNum x) acc w = (inl TypeError, w, [])).
Proof.
  split; [done|]. split; [apply dom_store_zip_take|]. split; [|done].
  intros Hnodup i name. by apply store_zip_lookup.
Qed.

Lemma method_turn_inv s m refs hyps (acc acc1 : gmap string (value num)) w w1 t :
  bind (call_compute_score s refs hyps) (λ score, store m score acc) w
  = (inr acc1, w1, t) →
  ∃ v, compute_score s refs hyps w = (inr v, w1)
       ∧ match m with
         | MName name => acc1 = <[name := v]> acc
         | MList names => ∃ l, v = VList l ∧ acc1 = store_zip l names acc
         end.
Proof.
  intros (v & w2 & t1 & t2 & Hcall & Hstore & ->)%bind_returns_inv.
  unfold call_compute_score in Hcall.
  destruct (compute_score s refs hyps w) as [[e|v'] w'] eqn:Hs; [done|].
  injection Hcall as -> -> _. exists v.
  destruct m as [names|name], v as [x|l]; simpl in Hstore; try done;
    injection Hstore as <- <-; eauto.
Qed.

Lemma method_turn_frame s m refs hyps (acc acc1 : gmap string (value num)) w w1 t n :
  bind (call_compute_score s refs hyps) (λ score, store m score acc) w
  = (inr acc1, w1, t) →
  n ∉ declared m → acc1 !! n = acc !! n.
Proof.
  intros (v & _ & Hm)%method_turn_inv Hn. destruct m as [names|name].
  - destruct Hm as (l & -> & ->). by apply store_zip_lookup_other.
  - subst acc1. apply lookup_insert_ne. intros ->. apply Hn. left.
Qed.

Lemma method_loop_frame (ds : list descriptor) refs hyps
    (acc rep : gmap string (value num)) w :
  returns (for_each ds
             (λ '(scorer, method) ret_scores,
                bind (call_compute_score scorer refs hyps)
                  (λ score, store method score ret_scores))
             acc) w rep →
  ∀ n, n ∉ (ds ≫= λ d, declared d.2) → rep !! n = acc !! n.
Proof.
  revert acc w. induction ds as [|[s m] ds IH]; intros acc w (w' & t & Hrun) n Hn.
  - by injection Hrun as <- _ _.
  - cbn [for_each] in Hrun.
    apply bind_returns_inv in Hrun as (acc1 & w1 & t1 & t2 & Hturn & Hrest & ->).
    simpl in Hn. rewrite elem_of_app in Hn.
    rewrite (IH acc1 w1);
      [|by eexists _, _|by intros ?; apply Hn; right].
    eapply method_turn_frame; [done|]. intros ?. apply Hn. by left.
Qed.

Lemma method_loop_world (ds : list descriptor) refs hyps
    (acc rep : gmap string (value num)) w w' t :
  for_each ds
    (λ '(scorer, method) ret_scores,
       bind (call_compute_score scorer refs hyps)
         (λ score, store method score ret_scores))
    acc w = (inr rep, w', t) →
  w' = foldl (λ w d, (compute_score d.1 refs hyps w).2) w ds.
Proof.
  revert acc w t. induction ds as [|[s m] ds IH]; intros acc w t; cbn [for_each].
  - by intros [= _ <- _].
  - intros (acc1 & w1 & t1 & t2 & Hturn & Hrest & ->)%bind_returns_inv.
    apply method_turn_inv in Hturn as (v & Hs & _).
    apply IH in Hrest as ->. simpl. by rewrite Hs.
Qed.

(** X8. The report holds what the scorers returned in this evaluation: when
    the declared names are distinct and the evaluation returns, the scorer
    at any position of the list was called in the state the calls of the
    scorers before it, made in order from the initial state, have left; a
    scalar name maps to the score returned by that call, and name [i] of a
    vector metric maps to score [i] of the sequence returned by that call
    (and is absent when the sequence is too short). *)
Theorem report_values self pre s m post ref hyp w rep :
  scorers self = pre ++ (s, m) :: post →
  NoDup (scorers self ≫= λ d, declared d.2) →
  returns (NLGEval_compute_individual_metrics self ref hyp) w rep →
  let refs : alignment := {[ 0 := PyStr.strip <$> iter_ref ref ]} in
  let hyps : alignment := {[ 0 := [PyStr.strip hyp] ]} in
  let w1 := foldl (λ w (d : descriptor), (compute_score d.1 refs hyps w).2) w pre in
  ∃ v,
    (compute_score s refs hyps w1).1 = inr v
    ∧ match m with
      | MName name => rep !! name = Some v
      | MList names =>
          ∃ l, v = VList l
               ∧ ∀ i name, names !! i = Some name →
                   rep !! name = VNum <$> l !! i
      end.
Proof.
  intros Hds Hnodup (w' & t & Hrun) refs hyps w1.
  unfold NLGEval_compute_individual_metrics in Hrun. fold refs hyps in Hrun.
  rewrite Hds, for_each_app in Hrun.
  apply bind_returns_inv in Hrun as (acc1 & wa & t1 & t2 & Hpre & Hrest & ->).
  cbn [for_each] in Hrest.
  apply bind_returns_inv in Hrest as (acc2 & wb & t3 & t4 & Hturn & Hpost & _).
  pose proof (method_loop_world _ _ _ _ _ _ _ _ Hpre) as Hwa. fold w1 in Hwa.
  subst wa.
  destruct (method_turn_inv _ _ _ _ _ _ _ _ _ Hturn) as (v & Hs & Hm).
  exists v. split; [exact (f_equal fst Hs)|].
  rewrite Hds, bind_app in Hnodup. simpl in Hnodup.
  apply NoDup_app in Hnodup as (_ & Hsep1 & Hnodup).
  apply NoDup_app in Hnodup as (Hhead & Hsep2 & _).
  assert (∀ n, n ∈ declared m → rep !! n = acc2 !! n) as Hkeep.
  { intros n Hn. apply (method_loop_frame post refs hyps acc2 rep wb);
      [by eexists _, _|]. by apply Hsep2. }
  assert (∀ n, n ∈ declared m → acc1 !! n = None) as Hfresh.
  { intros n Hn.
    rewrite (method_loop_frame pre refs hyps ∅ acc1 w); [apply lookup_empty| |].
    - by eexists _, _.
    - intros Hin. apply (Hsep1 n Hin). apply elem_of_app. by left. }
  destruct m as [names|name].
  - destruct Hm as (l & -> & ->). exists l. split; [done|].
    intros i name Hi. rewrite Hkeep by (by apply list_elem_of_lookup_2 in Hi).
    rewrite (store_zip_lookup l names acc1 i name) by done.
    destruct (l !! i); [done|]. apply Hfresh.
    by apply list_elem_of_lookup_2 in Hi.
  - subst acc2. rewrite Hkeep by left. apply lookup_insert_eq.
Qed.

End Values.

Lemma vector_scores_zip_names_witness :
  @store_zip steady [7; 8] ["Bleu_1"; "Bleu_2"; "Bleu_3"] ∅ !! "Bleu_2"
  = Some (VNum 8)
  ∧ @store_zip steady [7; 8] ["Bleu_1"; "Bleu_2"; "Bleu_3"] ∅ !! "Bleu_3" = None.
Proof.
  split.
  - apply (proj1 (proj2 (proj2 (@vector_scores_zip_names steady [7; 8]
             ["Bleu_1"; "Bleu_2"; "Bleu_3"] ∅ 0))) ltac:(compute_done) 1).
    reflexivity.
  - apply (proj1 (proj2 (proj2 (@vector_scores_zip_names steady [7; 8]
             ["Bleu_1"; "Bleu_2"; "Bleu_3"] ∅ 0))) ltac:(compute_done) 2).
    reflexivity.
Defined.

(** With scorers that answer their call count, ROUGE_L, called second,
    is reported as 1. *)
Lemma report_values_witness :
  let self := {| metrics_to_omit := list_to_set ["Bleu_1"; "CIDEr"; "SPICE"];
                 scorers := [(Meteor, MName "METEOR"); (Rouge, MName "ROUGE_L")] |} in
  ∃ rep,
    returns (@NLGEval_compute_individual_metrics counting self
               (RSeq ["the cat sat on the mat"; "a cat sat"]) "the cat sat") 0 rep
    ∧ ∃ v : value nat,
        (@compute_score counting Rouge
           {[ 0 := ["the cat sat on the mat"; "a cat sat"] ]}
           {[ 0 := ["the cat sat"] ]} 1).1 = inr v
        ∧ rep !! "ROUGE_L" = Some v.
Proof.
  intros self. eexists. split; [eexists _, _; reflexivity|].
  apply (@report_values counting self [(Meteor, MName "METEOR")]
           Rouge (MName "ROUGE_L") []
           (RSeq ["the cat sat on the mat"; "a cat sat"]) "the cat sat" 0 _
           eq_refl ltac:(compute_done) ltac:(eexists _, _; reflexivity)).
Defined.

Example report_values_example :
  result (@NLGEval_compute_individual_metrics counting
            {| metrics_to_omit := list_to_set ["Bleu_1"; "CIDEr"; "SPICE"];
               scorers := [(Meteor, MName "METEOR"); (Rouge, MName "ROUGE_L")] |}
            (RSeq ["the cat sat on the mat"; "a cat sat"]) "the cat sat" 0)
  = inr (<["ROUGE_L" := VNum 1]> (<["METEOR" := VNum 0]> ∅)).
Proof. reflexivity. Qed.

(** ** The dictionaries of a corpus *)

Section Corpus.
Context `{Collaborators}.

Lemma zip_star_item_length {A} (ls : list (list A)) i item :
  zip_star ls !! i = Some item → length item = length ls.
Proof.
  revert i item. induction ls as [|l ls IH]; intros i item; [done|].
  destruct ls as [|l' ls].
  - simpl. rewrite list_lookup_fmap. by destruct (l !! i); intros [= <-].
  - rewrite zip_star_cons2.
    intros (x & rest & -> & _ & Hrest)%lookup_zip_with_Some.
    simpl. f_equal. by apply (IH i).
Qed.

Lemma batch_aligned (ref_list : list (list string)) (hyp_list : list string) :
  length hyp_list = length (zip_star ref_list) →
  aligned (length ref_list)
    (enumerate_dict ((λ refs : list string, _strip <$> refs) <$> zip_star ref_list))
    (enumerate_dict ((λ lines, [PyStr.strip lines]) <$> hyp_list)).
Proof.
  intros Hlen. split; [|split].
  - unfold enumerate_dict. rewrite !dom_seq_L, !length_fmap. by rewrite Hlen.
  - intros i h. rewrite lookup_enumerate_dict, list_lookup_fmap.
    destruct (hyp_list !! i); [|done]. by intros [= <-].
  - intros i r. rewrite lookup_enumerate_dict, list_lookup_fmap.
    destruct (zip_star ref_list !! i) as [item|] eqn:Hitem; [|done].
    intros [= <-]. rewrite length_fmap. by eapply zip_star_item_length.
Qed.

(** X9. Batch evaluation never calls a scorer with dictionaries that do not
    fit: in every call the two dictionaries have the same keys, each key
    has exactly one hypothesis, and each key has one reference for every
    reference source. *)
Theorem batch_calls_aligned :
  (∀ self ref_list hyp_list w,
     every_call (aligned (length ref_list))
       (trace (NLGEval_compute_metrics self ref_list hyp_list w)))
  ∧ (∀ hypothesis references hyp_list ref_list w,
       readlines hypothesis = Some hyp_list →
       Forall2 (λ path lines, readlines path = Some lines) references ref_list →
       every_call (aligned (length references))
         (trace (compute_metrics hypothesis references w))).
Proof.
  split.
  - intros self ref_list hyp_list w.
    destruct (decide (length hyp_list = length (zip_star ref_list))) as [Hlen|Hne].
    + unfold NLGEval_compute_metrics.
      apply trace_all_bind; [apply trace_all_assert|]. intros _.
      apply trace_all_method_loop. intros s. by apply batch_aligned.
    + rewrite NLGEval_compute_metrics_mismatch by done. constructor.
  - intros hypothesis references hyp_list ref_list w Hhyp Hrefs.
    rewrite (compute_metrics_read _ _ hyp_list ref_list) by done.
    rewrite (Forall2_length _ _ _ Hrefs).
    destruct (decide (length hyp_list = length (zip_star ref_list))) as [Hlen|Hne].
    + apply every_call_on_lines. by apply batch_aligned.
    + rewrite compute_metrics_on_lines_mismatch by done. constructor.
Qed.

Lemma zip_star_singletons {A} (ref : list A) :
  ref ≠ [] → zip_star ((λ r, [r]) <$> ref) = [ref].
Proof.
  induction ref as [|r ref IH]; [done|]. intros _.
  destruct ref as [|r' ref]; [done|].
  specialize (IH ltac:(done)). rewrite fmap_cons in IH.
  rewrite !fmap_cons, zip_star_cons2, IH. done.
Qed.

(** X10. Single-pair evaluation is batch evaluation of a corpus of one item:
    for a non-empty reference sequence, the method for one pair does exactly
    what the batch method does on one hypothesis and one source per
    reference. *)
Theorem single_pair_is_batch_of_one self (ref : list string) hyp w :
  ref ≠ [] →
  NLGEval_compute_individual_metrics self (RSeq ref) hyp w
  = NLGEval_compute_metrics self ((λ r, [r]) <$> ref) [hyp] w.
Proof.
  intros Hne. unfold NLGEval_compute_metrics, NLGEval_compute_individual_metrics.
  rewrite sizes_differ, zip_star_singletons by done.
  rewrite bool_decide_eq_true_2, assert_true_bind by done.
  unfold enumerate_dict. simpl. by rewrite !insert_empty.
Qed.

End Corpus.

Lemma batch_calls_aligned_witness :
  every_call (aligned 2)
    (trace (@compute_metrics steady "hyp.txt" ["ref1.txt"; "ref2.txt"] 0)).
Proof.
  apply (proj2 (@batch_calls_aligned steady) "hyp.txt" ["ref1.txt"; "ref2.txt"]
           [" the cat sat" +:+ nl; "a dog" +:+ nl]
           [["the cat sat on the mat" +:+ nl; "a dog barked" +:+ nl;
             "left over" +:+ nl];
            ["a cat sat" +:+ nl; "the dog" +:+ nl]] 0).
  - reflexivity.
  - repeat constructor.
Defined.

Lemma single_pair_is_batch_of_one_witness :
  let self := {| metrics_to_omit := ∅;
                 scorers := [(Bleu 2, MList ["Bleu_1"; "Bleu_2"]);
                             (Meteor, MName "METEOR")] |} in
  @NLGEval_compute_individual_metrics steady self
    (RSeq ["the cat sat on the mat"; "a cat sat"]) "the cat sat" 0
  = @NLGEval_compute_metrics steady self
      [["the cat sat on the mat"]; ["a cat sat"]] ["the cat sat"] 0.
Proof.
  intros self.
  apply (@single_pair_is_batch_of_one steady self
           ["the cat sat on the mat"; "a cat sat"] "the cat sat" 0).
  done.
Defined.

(** ** The module-level function and the evaluator *)

Section Equivalence.
Context `{Collaborators}.

Lemma default_scorers self w :
  returns (NLGEval_init None) w self → scorers self = legacy_descriptors.
Proof.
  intros (w' & t & Hinit). apply init_inv in Hinit as (_ & _ & Hload).
  change legacy_descriptors with (bleu_tiers 4 ++ scalar_metrics ∅).
  eapply returns_unique; [by eexists _, _|].
  apply load_scorers_none. intros j _. apply not_elem_of_empty.
Qed.

Lemma legacy_store_result s m v (acc : gmap string (value num)) w1 w2 :
  result (bind (store m v acc)
            (λ ret_scores,
               bind (if is_meteor s then call_close s else ret ())
                 (λ _, ret ret_scores)) w1)
  = result (store m v acc w2).
Proof. destruct m, v; simpl; try done; by destruct (is_meteor s). Qed.

Lemma legacy_loop_result (ds : list descriptor) refs hyps :
  deterministic_scorers →
  ∀ (acc : gmap string (value num)) w1 w2,
    result (for_each ds
              (λ '(scorer, method) ret_scores,
                 bind (call_compute_score scorer refs hyps) (λ score,
                 bind (store method score ret_scores) (λ ret_scores,
                 bind (if is_meteor scorer then call_close scorer else ret ())
                   (λ _, ret ret_scores))))
              acc w1)
    = result (for_each ds
                (λ '(scorer, method) ret_scores,
                   bind (call_compute_score scorer refs hyps)
                     (λ score, store method score ret_scores))
                acc w2).
Proof.
  intros Hdet. induction ds as [|[s m] ds IH]; intros acc w1 w2; [done|].
  cbn [for_each].
  set (turnL := bind (call_compute_score s refs hyps) (λ score,
                bind (store m score acc) (λ ret_scores,
                bind (if is_meteor s then call_close s else ret ())
                  (λ _, ret ret_scores)))).
  set (turnM := bind (call_compute_score s refs hyps)
                  (λ score, store m score acc)).
  assert (result (turnL w1) = result (turnM w2)) as Hturn.
  { subst turnL turnM.
    rewrite !result_bind, !result_call, (Hdet s refs hyps w1 w2).
    destruct (compute_score s refs hyps w2).1; [done|].
    apply legacy_store_result. }
  rewrite (result_bind turnL), (result_bind turnM), Hturn.
  destruct (result (turnM w2)); [done|]. apply IH.
Qed.

Lemma legacy_single_result ref hyp w w' :
  deterministic_scorers →
  result (compute_individual_metrics ref hyp w)
  = result
      (for_each legacy_descriptors
         (λ '(scorer, method) ret_scores,
            bind (call_compute_score scorer
                    {[ 0 := PyStr.strip <$> iter_ref
                              match ref with
                              | RStr s => RSeq (PyStr.split "||<|>||" s)
                              | RSeq _ => ref
                              end ]}
                    {[ 0 := [PyStr.strip hyp] ]})
              (λ score, store method score ret_scores))
         ∅ w').
Proof.
  intros Hdet. unfold compute_individual_metrics.
  erewrite bind_inr by reflexivity. unfold result at 1. cbn [fst].
  by apply legacy_loop_result.
Qed.

(** X12. The module-level single-pair function gives what an evaluator
    constructed without omission gives: when the outcome of every scorer
    depends on its arguments alone, the two have the same result on a
    reference sequence, and on a reference string the function has the
    result the evaluator has on the pieces of the string. *)
Theorem module_function_is_default_evaluator self w0 :
  deterministic_scorers →
  returns (NLGEval_init None) w0 self →
  (∀ ref hyp w w',
     result (compute_individual_metrics (RSeq ref) hyp w)
     = result (NLGEval_compute_individual_metrics self (RSeq ref) hyp w'))
  ∧ (∀ s hyp w w',
       result (compute_individual_metrics (RStr s) hyp w)
       = result (NLGEval_compute_individual_metrics self
                   (RSeq (PyStr.split "||<|>||" s)) hyp w')).
Proof.
  intros Hdet Hinit. apply default_scorers in Hinit.
  split; intros; unfold NLGEval_compute_individual_metrics; rewrite Hinit;
    by apply legacy_single_result.
Qed.

Lemma split_go_no_sep sep s cur :
  PyStr.contains sep s = false → PyStr.split_go sep 0 cur s = [cur +:+ s].
Proof.
  revert cur. induction s as [|c s IH]; intros cur; simpl.
  - intros _. by rewrite append_nil_r.
  - destruct (PyStr.strip_prefix sep (String c s)); [done|].
    intros Hs. rewrite IH by done. rewrite append_assoc. by rewrite append_cons.
Qed.

(** X13. A reference string that does not contain the delimiter is one
    reference: the module-level function treats it as the one-element
    sequence of that string. *)
Theorem undelimited_string_is_one_reference s hyp w :
  PyStr.contains "||<|>||" s = false →
  compute_individual_metrics (RStr s) hyp w
  = compute_individual_metrics (RSeq [s]) hyp w.
Proof.
  intros Hs. unfold compute_individual_metrics, PyStr.split.
  by rewrite split_go_no_sep.
Qed.

End Equivalence.

Lemma module_function_is_default_evaluator_witness :
  let self := {| metrics_to_omit := ∅; scorers := legacy_descriptors |} in
  result (@compute_individual_metrics steady
            (RStr "the cat sat on the mat||<|>||a cat sat") "the cat sat" 0)
  = result (@NLGEval_compute_individual_metrics steady self
              (RSeq (PyStr.split "||<|>||" "the cat sat on the mat||<|>||a cat sat"))
              "the cat sat" 5).
Proof.
  intros self.
  apply (proj2 (@module_function_is_default_evaluator steady self 0
                  steady_deterministic ltac:(by eexists _, _))).
Defined.

Lemma undelimited_string_is_one_reference_witness :
  @compute_individual_metrics steady (RStr " a cat sat |<|>| ") "the cat sat" 0
  = @compute_individual_metrics steady (RSeq [" a cat sat |<|>| "]) "the cat sat" 0.
Proof.
  apply (@undelimited_string_is_one_reference steady). reflexivity.
Defined.

(** ** Whitespace around the texts *)

Section Padding.
Variable sp : ascii → bool.

Lemma lstrip_all_space l : PyStr.all_space sp l = true → PyStr.lstrip_with sp l = EmptyString.
Proof.
  induction l as [|c l IH]; simpl; [done|].
  intros [Hc Hl]%andb_true_iff. rewrite Hc. by apply IH.
Qed.

Lemma rstrip_all_space r : PyStr.all_space sp r = true → PyStr.rstrip_with sp r = EmptyString.
Proof.
  induction r as [|c r IH]; simpl; [done|].
  intros [Hc Hr]%andb_true_iff. by rewrite IH, Hc.
Qed.

Lemma lstrip_app s y :
  PyStr.lstrip_with sp (s +:+ y)
  = if PyStr.is_empty (PyStr.lstrip_with sp s)
    then PyStr.lstrip_with sp y
    else PyStr.lstrip_with sp s +:+ y.
Proof.
  induction s as [|c s IH]; [done|]. rewrite append_cons. simpl.
  destruct (sp c); [exact IH|done].
Qed.

Lemma rstrip_app_space x r :
  PyStr.all_space sp r = true →
  PyStr.rstrip_with sp (x +:+ r) = PyStr.rstrip_with sp x.
Proof.
  intros Hr. induction x as [|c x IH].
  - rewrite append_nil_l. by apply rstrip_all_space.
  - rewrite append_cons. simpl. by rewrite IH.
Qed.

Lemma strip_with_padded l s r :
  PyStr.all_space sp l = true → PyStr.all_space sp r = true →
  PyStr.strip_with sp (l +:+ s +:+ r) = PyStr.strip_with sp s.
Proof.
  intros Hl Hr. unfold PyStr.strip_with.
  rewrite lstrip_app, (lstrip_all_space l Hl). cbn [PyStr.is_empty].
  rewrite lstrip_app.
  destruct (PyStr.lstrip_with sp s) as [|c u] eqn:Hs; cbn [PyStr.is_empty].
  - by rewrite (lstrip_all_space r Hr).
  - by apply rstrip_app_space.
Qed.

End Padding.

Section PaddedTexts.
Context `{Collaborators}.

(** X14. Whitespace around a text does not count: [strip] gives the same
    string with or without a run of whitespace added at either end, so an
    evaluation of padded references and a padded hypothesis is the
    evaluation of the texts themselves. *)
Theorem surrounding_whitespace_ignored (l r : string) :
  PyStr.all_space PyStr.isspace l = true →
  PyStr.all_space PyStr.isspace r = true →
  (∀ s, PyStr.strip (l +:+ s +:+ r) = PyStr.strip s)
  ∧ (∀ self ref hyp w,
       NLGEval_compute_individual_metrics self
         (RSeq ((λ x, l +:+ x +:+ r) <$> ref)) (l +:+ hyp +:+ r) w
       = NLGEval_compute_individual_metrics self (RSeq ref) hyp w).
Proof.
  intros Hl Hr.
  assert (∀ s, PyStr.strip (l +:+ s +:+ r) = PyStr.strip s) as Hstrip.
  { intros s. by apply strip_with_padded. }
  split; [done|]. intros self ref hyp w.
  unfold NLGEval_compute_individual_metrics. simpl.
  rewrite Hstrip, <-list_fmap_compose.
  by rewrite (list_fmap_ext _ PyStr.strip ref) by (intros; apply Hstrip).
Qed.

End PaddedTexts.

Lemma surrounding_whitespace_ignored_witness :
  PyStr.strip ("  " +:+ "the cat sat" +:+ (" " +:+ nl)) = PyStr.strip "the cat sat".
Proof.
  apply (proj1 (@surrounding_whitespace_ignored steady "  " (" " +:+ nl)
                  ltac:(reflexivity) ltac:(reflexivity))).
Defined.

(** ** What the module-level functions print and release *)

Section Printing.
Context `{Collaborators}.

Lemma print_arguments_app t1 t2 : print_arguments (t1 ++ t2) = print_arguments t1 ++ print_arguments t2.
Proof. apply omap_app. Qed.

Lemma print_arguments_quiet t : Forall (λ ev, print_arguments [ev] = []) t → print_arguments t = [].
Proof.
  induction 1 as [|ev t Hev _ IH]; [done|].
  change (ev :: t) with ([ev] ++ t). by rewrite print_arguments_app, Hev, IH.
Qed.

Lemma store_zip_print_run (l : list num) names (acc : gmap string (value num)) w :
  store_zip_print l names acc w
  = (inr (store_zip l names acc), w, (λ p, EvPrint p.2 p.1) <$> zip l names).
Proof.
  unfold store_zip_print, store_zip. generalize (zip l names). intros ps.
  revert acc. induction ps as [|p ps IH]; intros acc; simpl; [done|].
  rewrite (bind_inr _ _ w (<[p.2 := VNum p.1]> acc) w [EvPrint p.2 p.1]) by done.
  by rewrite IH.
Qed.

Lemma print_arguments_zip (ps : list (num * string)) (acc : gmap string (value num)) :
  foldl (λ r p, <[p.1 := VNum p.2]> r) acc (print_arguments ((λ p, EvPrint p.2 p.1) <$> ps))
  = foldl (λ r p, <[p.2 := VNum p.1]> r) acc ps.
Proof. revert acc. induction ps as [|p ps IH]; intros acc; simpl; [done|]. apply IH. Qed.

Lemma store_print_inv m v (acc acc' : gmap string (value num)) w w' t :
  store_print m v acc w = (inr acc', w', t) →
  acc' = foldl (λ r p, <[p.1 := VNum p.2]> r) acc (print_arguments t) ∧ schedule t = [].
Proof.
  destruct m as [names|name], v as [x|l]; simpl; try done.
  - rewrite store_zip_print_run. intros [= <- _ <-].
    split; [by rewrite print_arguments_zip|].
    apply schedule_quiet, Forall_fmap, Forall_true. done.
  - by intros [= <- _ <-].
Qed.

Lemma print_turn_inv s m refs hyps (acc acc' : gmap string (value num)) w w' t :
  bind (call_compute_score s refs hyps) (λ score,
  bind (store_print m score acc) (λ ret_scores,
  bind (if is_meteor s then call_close s else ret ())
    (λ _, ret ret_scores))) w = (inr acc', w', t) →
  acc' = foldl (λ r p, <[p.1 := VNum p.2]> r) acc (print_arguments t).
Proof.
  intros (v & w1 & t1 & t2 & Hcall & Hrun & ->)%bind_returns_inv.
  apply bind_returns_inv in Hrun as (r & w2 & t3 & t4 & Hstore & Hrun & ->).
  apply bind_returns_inv in Hrun as ([] & w3 & t5 & t6 & Hclose & Hret & ->).
  injection Hret as <- _ <-.
  apply store_print_inv in Hstore as [-> _].
  assert (t1 = [EvCompute s refs hyps]) as ->.
  { rewrite <-(trace_call s refs hyps w). by rewrite Hcall. }
  assert (print_arguments t5 = []) as Ht5.
  { destruct (is_meteor s); by injection Hclose as _ <-. }
  by rewrite !print_arguments_app, Ht5, !app_nil_r.
Qed.

Lemma print_loop_inv (ds : list descriptor) refs hyps
    (acc rep : gmap string (value num)) w w' t :
  for_each ds
    (λ '(scorer, method) ret_scores,
       bind (call_compute_score scorer refs hyps) (λ score,
       bind (store_print method score ret_scores) (λ ret_scores,
       bind (if is_meteor scorer then call_close scorer else ret ())
         (λ _, ret ret_scores))))
    acc w = (inr rep, w', t) →
  rep = foldl (λ r p, <[p.1 := VNum p.2]> r) acc (print_arguments t).
Proof.
  revert acc w t. induction ds as [|[s m] ds IH]; intros acc w t; cbn [for_each].
  - by intros [= <- _ <-].
  - intros (acc1 & w1 & t1 & t2 & Hturn & Hrest & ->)%bind_returns_inv.
    apply print_turn_inv in Hturn as ->. apply IH in Hrest as ->.
    by rewrite print_arguments_app, foldl_app.
Qed.

(** X15. The module-level [compute_metrics] prints one line for each score
    it stores and nothing else: when the call returns there is a list of
    entries, each a name with its score, in the order they were stored,
    whose dictionary is the report and whose renderings, the name followed
    by the score written by the format, are the printed lines in order.  The
    module-level single-pair function prints nothing. *)
Theorem printed_lines_render_the_report (fmt : num → string) :
  (∀ hypothesis references w rep w' t,
     compute_metrics hypothesis references w = (inr rep, w', t) →
     ∃ entries : list (string * num),
       rep = foldl (λ r p, <[p.1 := VNum p.2]> r) ∅ entries
       ∧ printed_text fmt t = (λ p, p.1 +:+ ": " +:+ fmt p.2) <$> entries)
  ∧ (∀ ref hyp w,
       printed_text fmt (trace (compute_individual_metrics ref hyp w)) = []).
Proof.
  split.
  - intros hypothesis references w rep w' t. unfold compute_metrics.
    intros (hyp_list & w1 & t1 & t2 & Hhyp & Hrun & ->)%bind_returns_inv.
    apply bind_returns_inv in Hrun as (ref_list & w2 & t3 & t4 & Hrefs & Hrun & ->).
    assert (t1 = []) as ->.
    { unfold open_readlines in Hhyp. destruct (readlines hypothesis); [|done].
      by injection Hhyp as _ _ <-. }
    assert (t3 = []) as ->.
    { apply silent_nil.
      pose proof (reads_silent references [] w1) as Hq.
      rewrite Hrefs in Hq. exact Hq. }
    simpl. unfold compute_metrics_on_lines in Hrun.
    apply bind_returns_inv in Hrun as ([] & w3 & t5 & t6 & Hassert & Hrun & ->).
    assert (t5 = []) as ->.
    { destruct (bool_decide _) in Hassert; [|done]. by injection Hassert as _ <-. }
    apply bind_returns_inv in Hrun as (ds & w4 & t7 & t8 & Hall & Hloop & ->).
    injection Hall as <- _ <-.
    apply print_loop_inv in Hloop.
    exists (print_arguments t8). split; [exact Hloop|].
    unfold printed_text. by rewrite !print_arguments_app.
  - intros ref hyp w. unfold printed_text.
    rewrite print_arguments_quiet; [done|]. unfold compute_individual_metrics.
    apply trace_all_bind; [by apply trace_all_all_scorers|]. intros ds.
    by apply trace_all_legacy_loop.
Qed.

Lemma bind_raises_inv {A B} (m : M A) (k : A → M B) w e w' t :
  bind m k w = (inl e, w', t) →
  m w = (inl e, w', t)
  ∨ ∃ a w1 t1 t2, m w = (inr a, w1, t1) ∧ k a w1 = (inl e, w', t2) ∧ t = t1 ++ t2.
Proof.
  unfold bind. destruct (m w) as [[[e1|a] w1] t1]; [intros [= -> -> ->]; by left|].
  destruct (k a w1) as [[r w2] t2] eqn:Hk. intros [= -> -> <-].
  right. by exists a, w1, t1, t2.
Qed.

Lemma legacy_turn_fails
    (st : method → value num → gmap string (value num) → M (gmap string (value num)))
    refs hyps scorer method acc w e w' t :
  (∀ m v r, trace_all (λ ev, schedule [ev] = []) (st m v r)) →
  bind (call_compute_score scorer refs hyps) (λ score,
  bind (st method score acc) (λ ret_scores,
  bind (if is_meteor scorer then call_close scorer else ret ())
    (λ _, ret ret_scores))) w = (inl e, w', t) →
  schedule t = [Call scorer].
Proof.
  intros Hst [Hcall|(v & w1 & t1 & t2 & Hcall & Hrun & ->)]%bind_raises_inv.
  - pose proof (trace_call scorer refs hyps w) as Ht. rewrite Hcall in Ht.
    simpl in Ht. by subst t.
  - assert (t1 = [EvCompute scorer refs hyps]) as ->.
    { rewrite <-(trace_call scorer refs hyps w). by rewrite Hcall. }
    rewrite schedule_app. simpl. f_equal.
    apply bind_raises_inv in Hrun
      as [Hstore|(r & w2 & t3 & t4 & _ & Hrun & ->)].
    + apply schedule_quiet. specialize (Hst method v acc w1).
      by rewrite Hstore in Hst.
    + exfalso. apply bind_raises_inv in Hrun as [Hclose|(? & ? & ? & ? & _ & ? & _)];
        [|done]. by destruct (is_meteor scorer).
Qed.

Lemma loop_fails {S} (body : descriptor → S → M S) ds acc w e w' t :
  (∀ d acc w acc' w' t, body d acc w = (inr acc', w', t) → schedule t = turn d) →
  (∀ d acc w e w' t, body d acc w = (inl e, w', t) → schedule t = [Call d.1]) →
  for_each ds body acc w = (inl e, w', t) →
  ∃ pre d post, ds = pre ++ d :: post ∧ schedule t = (pre ≫= turn) ++ [Call d.1].
Proof.
  intros Hok Hfail. revert acc w t.
  induction ds as [|d ds IH]; intros acc w t; cbn [for_each]; [done|].
  intros [Hd|(acc1 & w1 & t1 & t2 & Hd & Hrest & ->)]%bind_raises_inv.
  - exists [], d, ds. split; [done|]. by apply Hfail in Hd.
  - apply IH in Hrest as (pre & d' & post & -> & Hsched).
    exists (d :: pre), d', post. split; [done|].
    rewrite schedule_app, (Hok _ _ _ _ _ _ Hd), Hsched. simpl.
    by rewrite app_assoc.
Qed.

Lemma legacy_failure_release pre d post :
  legacy_descriptors = pre ++ d :: post →
  Release Meteor ∈ (pre ≫= turn) ++ [Call d.1] ↔ d.1 ∈ [Rouge; Cider; Spice].
Proof.
  unfold legacy_descriptors. intros Heq.
  destruct pre as [|d0 [|d1 [|d2 [|d3 [|d4 [|d5 pre]]]]]];
    simplify_eq/=; split; intros Hin;
    repeat (apply elem_of_cons in Hin as [Hin|Hin]; try done);
    try (by apply elem_of_nil in Hin);
    repeat first [by left | right].
Qed.

(** X16. A call of a module-level function that raises in the scorer loop
    stopped at one scorer: the scorers before it had their full turn, the
    failing one was called and nothing follows.  The METEOR scorer has then
    been released exactly when the failure came from ROUGE_L, CIDEr or
    SPICE; a failure of Bleu or of METEOR itself leaves it unreleased. *)
Theorem failed_call_schedule :
  (∀ ref hyp w e w' t,
     compute_individual_metrics ref hyp w = (inl e, w', t) →
     ∃ pre d post,
       legacy_descriptors = pre ++ d :: post
       ∧ schedule t = (pre ≫= turn) ++ [Call d.1]
       ∧ (Release Meteor ∈ schedule t ↔ d.1 ∈ [Rouge; Cider; Spice]))
  ∧ (∀ hyp_list ref_list w e w' t,
       compute_metrics_on_lines hyp_list ref_list w = (inl e, w', t) →
       e ≠ AssertionError →
       ∃ pre d post,
         legacy_descriptors = pre ++ d :: post
         ∧ schedule t = (pre ≫= turn) ++ [Call d.1]
         ∧ (Release Meteor ∈ schedule t ↔ d.1 ∈ [Rouge; Cider; Spice])).
Proof.
  split.
  - intros ref hyp w e w' t. unfold compute_individual_metrics.
    intros [Hall|(ds & w1 & t1 & t2 & Hall & Hloop & ->)]%bind_raises_inv; [done|].
    injection Hall as <- _ <-.
    apply loop_fails in Hloop as (pre & d & post & Heq & Hsched).
    + exists pre, d, post. rewrite schedule_app. simpl. rewrite Hsched.
      split; [done|]. split; [done|]. by apply (legacy_failure_release pre d post).
    + intros [scorer method] acc w2 acc' w3 t3.
      apply (legacy_turn store). intros m v r. apply trace_all_store.
    + intros [scorer method] acc w2 e' w3 t3.
      apply (legacy_turn_fails store). intros m v r. apply trace_all_store.
  - intros hyp_list ref_list w e w' t. unfold compute_metrics_on_lines.
    intros [Hassert|([] & w0 & t0 & t' & Hassert & Hrun & ->)]%bind_raises_inv He.
    { destruct (bool_decide _) in Hassert; [done|].
      injection Hassert as <- _ _. done. }
    assert (t0 = []) as ->.
    { destruct (bool_decide _) in Hassert; [|done]. by injection Hassert as _ <-. }
    apply bind_raises_inv in Hrun
      as [Hall|(ds & w1 & t1 & t2 & Hall & Hloop & ->)]; [done|].
    injection Hall as <- _ <-.
    apply loop_fails in Hloop as (pre & d & post & Heq & Hsched).
    + exists pre, d, post. rewrite !schedule_app. simpl. rewrite Hsched.
      split; [done|]. split; [done|]. by apply (legacy_failure_release pre d post).
    + intros [scorer method] acc w2 acc' w3 t3.
      apply (legacy_turn store_print). intros m v r.
      by apply trace_all_store_print.
    + intros [scorer method] acc w2 e' w3 t3.
      apply (legacy_turn_fails store_print). intros m v r.
      by apply trace_all_store_print.
Qed.

End Printing.

Lemma printed_lines_render_the_report_witness :
  let o := @compute_metrics steady "hyp.txt" ["ref1.txt"; "ref2.txt"] 0 in
  ∃ rep (entries : list (string * nat)),
    result o = inr rep
    ∧ rep = foldl (λ r p, <[p.1 := VNum p.2]> r) ∅ entries
    ∧ @printed_text steady pretty (trace o)
      = (λ p, p.1 +:+ ": " +:+ pretty p.2) <$> entries.
Proof.
  intros o. eexists.
  destruct (proj1 (@printed_lines_render_the_report steady pretty) "hyp.txt"
              ["ref1.txt"; "ref2.txt"] 0 _ _ _ eq_refl) as (entries & Hrep & Htext).
  exists entries. split; [reflexivity|]. split; [exact Hrep|exact Htext].
Defined.

Lemma failed_call_schedule_witness :
  let t := trace (@compute_individual_metrics broken_meteor
                    (RSeq ["a cat sat"]) "the cat sat" 0) in
  ∃ pre d post,
    legacy_descriptors = pre ++ d :: post
    ∧ schedule t = (pre ≫= turn) ++ [Call d.1]
    ∧ (Release Meteor ∈ schedule t ↔ d.1 ∈ [Rouge; Cider; Spice]).
Proof.
  exact (proj1 (@failed_call_schedule broken_meteor) (RSeq ["a cat sat"])
           "the cat sat" 0 _ _ _ eq_refl).
Defined.

(** ** The keys of the other reports *)

Section Completeness.
Context `{Collaborators}.

(** X17. Report completeness for a corpus: when the sizes agree and every
    scorer of the active list honors the scoring contract, batch evaluation
    returns a report whose keys are exactly the declared names. *)
Theorem batch_report_completeness self ref_list hyp_list w :
  length hyp_list = length (zip_star ref_list) →
  Forall honors_contract (scorers self) →
  ∃ rep,
    returns (NLGEval_compute_metrics self ref_list hyp_list) w rep
    ∧ dom rep = declared_names (scorers self).
Proof.
  intros Hlen Hall. unfold NLGEval_compute_metrics.
  destruct (method_loop_report (scorers self)
              (enumerate_dict ((λ refs : list string, _strip <$> refs)
                                 <$> zip_star ref_list))
              (enumerate_dict ((λ lines, [PyStr.strip lines]) <$> hyp_list))
              Hall ∅ w) as (rep & (w' & t & Hret) & Hdom).
  exists rep. split; [|by rewrite Hdom, dom_empty_L, union_empty_l_L].
  exists w', t.
  by rewrite sizes_differ, bool_decide_eq_true_2, assert_true_bind.
Qed.

Lemma legacy_loop_report
    (st : method → value num → gmap string (value num) → M (gmap string (value num)))
    (ds : list descriptor) refs hyps :
  (∀ names l acc w,
     ∃ t, st (MList names) (VList l) acc w = (inr (store_zip l names acc), w, t)) →
  (∀ name x acc w,
     ∃ t, st (MName name) (VNum x) acc w = (inr (<[name := VNum x]> acc), w, t)) →
  Forall honors_contract ds →
  ∀ acc w,
  ∃ rep,
    returns (for_each ds
               (λ '(scorer, method) ret_scores,
                  bind (call_compute_score scorer refs hyps) (λ score,
                  bind (st method score ret_scores) (λ ret_scores,
                  bind (if is_meteor scorer then call_close scorer else ret ())
                    (λ _, ret ret_scores))))
               acc) w rep
    ∧ dom rep = dom acc ∪ declared_names ds.
Proof.
  intros Hvec Hsca. induction 1 as [|[s m] ds Hd _ IH]; intros acc w.
  - exists acc. split; [apply returns_ret|].
    unfold declared_names. simpl. by rewrite union_empty_r_L.
  - destruct (Hd refs hyps w) as (v & w1 & Hs & Hshape). simpl in Hs, Hshape.
    assert (call_compute_score s refs hyps w
            = (inr v, w1, [EvCompute s refs hyps])) as Hcall.
    { unfold call_compute_score. by rewrite Hs. }
    assert (∃ acc1 t1, st m v acc w1 = (inr acc1, w1, t1)
                       ∧ dom acc1 = dom acc ∪ list_to_set (declared m))
      as (acc1 & t1 & Hst & Hdom1).
    { destruct m as [names|name], v as [x|l]; try done.
      - destruct (Hvec names l acc w1) as (t1 & Ht1).
        exists (store_zip l names acc), t1. split; [done|]. by apply dom_store_zip.
      - destruct (Hsca name x acc w1) as (t1 & Ht1).
        exists (<[name := VNum x]> acc), t1. split; [done|]. simpl.
        rewrite dom_insert_L, union_empty_r_L. apply (comm_L (∪)). }
    assert (∃ w2 t2, (if is_meteor s then call_close s else ret ()) w1
                     = (inr (), w2, t2)) as (w2 & t2 & Hclose).
    { destruct (is_meteor s); by eexists _, _. }
    destruct (IH acc1 w2) as (rep & Hrest & Hdom).
    exists rep. split.
    + cbn [for_each]. eapply returns_bind_from; [|exact Hrest].
      rewrite (bind_inr _ _ _ _ _ _ Hcall), (bind_inr _ _ _ _ _ _ Hst),
        (bind_inr _ _ _ _ _ _ Hclose). reflexivity.
    + rewrite Hdom, Hdom1. unfold declared_names. simpl.
      by rewrite list_to_set_app_L, (assoc_L (∪)).
Qed.

Lemma legacy_names : declared_names legacy_descriptors = valid_metrics.
Proof. reflexivity. Qed.

(** X18. The module-level functions report every metric of the catalog: when
    the five scorers honor the scoring contract, the single-pair function
    and, on readable files whose sizes agree, the corpus function return a
    report whose keys are the eight names. *)
Theorem module_functions_report_every_metric :
  Forall honors_contract legacy_descriptors →
  (∀ ref hyp w,
     ∃ rep, returns (compute_individual_metrics ref hyp) w rep
            ∧ dom rep = valid_metrics)
  ∧ (∀ hypothesis references hyp_list ref_list w,
       readlines hypothesis = Some hyp_list →
       Forall2 (λ path lines, readlines path = Some lines) references ref_list →
       length hyp_list = length (zip_star ref_list) →
       ∃ rep, returns (compute_metrics hypothesis references) w rep
              ∧ dom rep = valid_metrics).
Proof.
  intros Hall. split.
  - intros ref hyp w. unfold compute_individual_metrics.
    destruct (all_scorers w) as [[r w1] t1] eqn:Hnew.
    injection Hnew as <- <- <-.
    edestruct (legacy_loop_report store legacy_descriptors) as (rep & Hret & Hdom);
      [by eexists| by eexists |exact Hall|].
    exists rep. split.
    + eapply returns_bind_from; [reflexivity|exact Hret].
    + by rewrite Hdom, dom_empty_L, union_empty_l_L, legacy_names.
  - intros hypothesis references hyp_list ref_list w Hhyp Hrefs Hlen.
    unfold returns.
    setoid_rewrite (compute_metrics_read _ _ hyp_list ref_list w Hhyp Hrefs).
    unfold compute_metrics_on_lines.
    rewrite sizes_differ, bool_decide_eq_true_2, assert_true_bind by done.
    edestruct (legacy_loop_report store_print legacy_descriptors)
      as (rep & Hret & Hdom); [| |exact Hall|].
    + intros names l acc w1. eexists. apply (store_zip_print_run l names acc w1).
    + intros name x acc w1. by eexists.
    + exists rep. split.
      * eapply returns_bind_from; [reflexivity|exact Hret].
      * by rewrite Hdom, dom_empty_L, union_empty_l_L, legacy_names.
Qed.

(** X19. Omitting more never adds a name: of two evaluators, the one whose
    omission set contains the other's declares a subset of the other's
    names. *)
Theorem omission_is_monotone arg arg' w w' self self' :
  returns (NLGEval_init arg) w self →
  returns (NLGEval_init arg') w' self' →
  metrics_to_omit self ⊆ metrics_to_omit self' →
  declared_names (scorers self') ⊆ declared_names (scorers self).
Proof.
  intros Hinit Hinit' Hsub name.
  rewrite (reported_names arg w self Hinit name).
  rewrite (reported_names arg' w' self' Hinit' name).
  intros [[Hscalar Hout]|(j & Hj & -> & Hnone)].
  - left. split; [done|]. intros Hin. by apply Hout, Hsub.
  - right. exists j. split; [done|]. split; [done|].
    intros i Hi Hin. by apply (Hnone i Hi), Hsub.
Qed.

End Completeness.

Lemma batch_report_completeness_witness :
  ∃ rep,
    returns
      (@NLGEval_compute_metrics steady
         {| metrics_to_omit := list_to_set ["Bleu_3"; "METEOR"; "CIDEr"; "SPICE"];
            scorers := [(Bleu 2, MList ["Bleu_1"; "Bleu_2"]);
                        (Rouge, MName "ROUGE_L")] |}
         [["the cat sat on the mat"; "a dog barked"]; ["a cat sat"; "the dog"]]
         ["the cat sat"; "a dog"])
      0 rep
    ∧ dom rep = list_to_set ["Bleu_1"; "Bleu_2"; "ROUGE_L"].
Proof.
  apply (@batch_report_completeness steady); [reflexivity|].
  repeat constructor.
  - by apply steady_honors_contract.
  - intros refs hyps w. by eexists _, _.
Defined.

Lemma steady_legacy_contract : Forall (@honors_contract steady) legacy_descriptors.
Proof.
  repeat constructor; try (by apply steady_honors_contract);
    intros refs hyps w; by eexists _, _.
Qed.

Lemma module_functions_report_every_metric_witness :
  ∃ rep,
    returns (@compute_metrics steady "hyp.txt" ["ref1.txt"; "ref2.txt"]) 0 rep
    ∧ dom rep = valid_metrics.
Proof.
  apply (proj2 (@module_functions_report_every_metric steady steady_legacy_contract)
           "hyp.txt" ["ref1.txt"; "ref2.txt"]
           [" the cat sat" +:+ nl; "a dog" +:+ nl]
           [["the cat sat on the mat" +:+ nl; "a dog barked" +:+ nl;
             "left over" +:+ nl];
            ["a cat sat" +:+ nl; "the dog" +:+ nl]] 0).
  - reflexivity.
  - repeat constructor.
  - reflexivity.
Defined.

Lemma omission_is_monotone_witness :
  declared_names [(Bleu 2, MList ["Bleu_1"; "Bleu_2"]);
                  (Rouge, MName "ROUGE_L");
                  (Cider, MName "CIDEr");
                  (Spice, MName "SPICE")]
  ⊆ declared_names legacy_descriptors.
Proof.
  apply (@omission_is_monotone steady None (Some ["Bleu_3"; "METEOR"; "Bleu_4"]) 0 0
           {| metrics_to_omit := ∅; scorers := legacy_descriptors |}
           {| metrics_to_omit := list_to_set ["Bleu_3"; "METEOR"; "Bleu_4"];
              scorers := [(Bleu 2, MList ["Bleu_1"; "Bleu_2"]);
                          (Rouge, MName "ROUGE_L");
                          (Cider, MName "CIDEr");
                          (Spice, MName "SPICE")] |}).
  - by eexists _, _.
  - eexists _, _. apply construction_witness.
  - intros x Hx. by apply not_elem_of_empty in Hx.
Defined.

(** ** What is stored and passed to the scorers *)

Section Passed.
Context `{Collaborators}.

Lemma calls_app t1 t2 : calls (t1 ++ t2) = calls t1 ++ calls t2.
Proof. apply omap_app. Qed.

Lemma calls_quiet t : Forall (λ ev, calls [ev] = []) t → calls t = [].
Proof.
  induction 1 as [|ev t Hev _ IH]; [done|].
  change (ev :: t) with ([ev] ++ t). by rewrite calls_app, Hev, IH.
Qed.

(** A loop whose every turn records exactly one call records the calls of
    a prefix of the list: all of it when the loop returns, and at least the
    first when there is one. *)
Lemma loop_calls {St} (body : descriptor → St → M St) refs hyps
    (ds : list descriptor) acc w :
  (∀ d acc w, calls (trace (body d acc w)) = [(d.1, refs, hyps)]) →
  ∃ k, k ≤ length ds
       ∧ (ds ≠ [] → 0 < k)
       ∧ (∀ r, result (for_each ds body acc w) = inr r → k = length ds)
       ∧ calls (trace (for_each ds body acc w))
         = (λ d, (d.1, refs, hyps)) <$> take k ds.
Proof.
  intros Hbody. revert acc w. induction ds as [|d ds IH]; intros acc w.
  - exists 0. split; [done|]. split; [done|]. split; [done|]. done.
  - cbn [for_each]. set (turn1 := body d acc).
    rewrite (trace_bind turn1), (result_bind turn1).
    pose proof (Hbody d acc w) as Hturn. fold turn1 in Hturn.
    destruct (result (turn1 w)) as [e|acc1].
    + exists 1. simpl. split; [lia|]. split; [intros; lia|].
      split; [by intros ?|]. by rewrite Hturn.
    + destruct (IH acc1 (world_after (turn1 w))) as (k & Hk & _ & Hret & Hcalls).
      exists (S k). simpl. split; [lia|]. split; [intros; lia|].
      split; [intros r Hr; f_equal; by apply (Hret r)|].
      by rewrite calls_app, Hturn, Hcalls.
Qed.

Lemma bind_inr_parts {A B} (m : M A) (k : A → M B) w a w1 t1 :
  m w = (inr a, w1, t1) →
  result (bind m k w) = result (k a w1)
  ∧ trace (bind m k w) = t1 ++ trace (k a w1).
Proof.
  intros Hm. rewrite result_bind, trace_bind.
  unfold result, world_after, trace. by rewrite Hm.
Qed.

Lemma legacy_turn_calls
    (st : method → value num → gmap string (value num) → M (gmap string (value num)))
    refs hyps s m acc w :
  (∀ m v r, trace_all (λ ev, calls [ev] = []) (st m v r)) →
  calls (trace
           (bind (call_compute_score s refs hyps) (λ score,
            bind (st m score acc) (λ ret_scores,
            bind (if is_meteor s then call_close s else ret ())
              (λ _, ret ret_scores))) w))
  = [(s, refs, hyps)].
Proof.
  intros Hst. rewrite trace_bind, trace_call.
  destruct (result (call_compute_score s refs hyps w)) as [e|v]; [done|].
  rewrite calls_app. simpl. f_equal. apply calls_quiet.
  apply trace_all_bind; [apply Hst|]. intros r.
  apply trace_all_bind; [|intros _; apply trace_all_ret].
  destruct (is_meteor s); [by apply trace_all_close|apply trace_all_ret].
Qed.

Lemma method_loop_pinned (ds : list descriptor) refs hyps
    (acc : gmap string (value num)) w :
  let o := for_each ds
             (λ '(scorer, method) ret_scores,
                bind (call_compute_score scorer refs hyps)
                  (λ score, store method score ret_scores))
             acc w in
  ∃ k, k ≤ length ds
       ∧ (ds ≠ [] → 0 < k)
       ∧ (∀ rep, result o = inr rep → k = length ds)
       ∧ trace o = calls_of (take k ds) refs hyps.
Proof.
  cbn zeta. pose proof (method_loop_trace ds refs hyps acc w) as Hshape.
  cbn zeta in Hshape. destruct Hshape as (k & Hk & Htrace & Hret & Herr).
  exists k. split; [done|]. split; [|done].
  intros Hne. destruct (result _) as [e|rep] eqn:Hres.
  - by apply (Herr e).
  - rewrite (Hret rep eq_refl). destruct ds; [done|simpl; lia].
Qed.

Lemma legacy_single_pinned ref hyp w :
  let refs : alignment :=
    {[ 0 := PyStr.strip <$> iter_ref
              match ref with
              | RStr s => RSeq (PyStr.split "||<|>||" s)
              | RSeq _ => ref
              end ]} in
  let hyps : alignment := {[ 0 := [PyStr.strip hyp] ]} in
  let o := compute_individual_metrics ref hyp w in
  ∃ k, k ≤ length legacy_descriptors
       ∧ 0 < k
       ∧ (∀ rep, result o = inr rep → k = length legacy_descriptors)
       ∧ calls (trace o) = (λ d, (d.1, refs, hyps)) <$> take k legacy_descriptors.
Proof.
  intros refs hyps o. subst o. unfold compute_individual_metrics.
  match goal with
  | |- context [bind all_scorers ?K w] =>
      destruct (bind_inr_parts all_scorers K w _ _ _ eq_refl) as [-> ->]
  end.
  rewrite calls_app. cbn [calls omap list_omap app].
  edestruct (loop_calls
               (λ '(scorer, method) ret_scores,
                  bind (call_compute_score scorer refs hyps) (λ score,
                  bind (store method score ret_scores) (λ ret_scores,
                  bind (if is_meteor scorer then call_close scorer else ret ())
                    (λ _, ret ret_scores))))
               refs hyps legacy_descriptors ∅)
    as (k & Hk & Hpos & Hret & Hcalls).
  { intros [s m] acc w1. apply (legacy_turn_calls store).
    intros m' v r. apply trace_all_store. }
  exists k. split; [exact Hk|]. split; [by apply Hpos|].
  split; [exact Hret|]. exact Hcalls.
Qed.

Lemma legacy_batch_pinned hyp_list ref_list w :
  length hyp_list = length (zip_star ref_list) →
  let refs : alignment :=
    enumerate_dict ((λ refs : list string, _strip <$> refs) <$> zip_star ref_list) in
  let hyps : alignment :=
    enumerate_dict ((λ lines, [PyStr.strip lines]) <$> hyp_list) in
  let o := compute_metrics_on_lines hyp_list ref_list w in
  ∃ k, k ≤ length legacy_descriptors
       ∧ 0 < k
       ∧ (∀ rep, result o = inr rep → k = length legacy_descriptors)
       ∧ calls (trace o) = (λ d, (d.1, refs, hyps)) <$> take k legacy_descriptors.
Proof.
  intros Hlen refs hyps o. subst o. unfold compute_metrics_on_lines.
  rewrite sizes_differ, bool_decide_eq_true_2, assert_true_bind by done.
  match goal with
  | |- context [bind all_scorers ?K w] =>
      destruct (bind_inr_parts all_scorers K w _ _ _ eq_refl) as [-> ->]
  end.
  rewrite calls_app. cbn [calls omap list_omap app].
  edestruct (loop_calls
               (λ '(scorer, method) ret_scores,
                  bind (call_compute_score scorer refs hyps) (λ score,
                  bind (store_print method score ret_scores) (λ ret_scores,
                  bind (if is_meteor scorer then call_close scorer else ret ())
                    (λ _, ret ret_scores))))
               refs hyps legacy_descriptors ∅)
    as (k & Hk & Hpos & Hret & Hcalls).
  { intros [s m] acc w1. apply (legacy_turn_calls store_print).
    intros m' v r. by apply trace_all_store_print. }
  exists k. split; [exact Hk|]. split; [by apply Hpos|].
  split; [exact Hret|]. exact Hcalls.
Qed.

(** C6. Trimming: [strip] removes a run of whitespace at each end and
    leaves a string that neither begins nor ends with whitespace; applied
    to its own result it changes nothing.  In each of the four entry points
    the two dictionaries hold, index by index, the trimmed references and
    the trimmed hypothesis, and these dictionaries are what the scorers are
    called with: the calls recorded are those of the scorers of the list,
    in order, each with these two dictionaries, the first scorer at least
    and all of them when the call returns. *)
Theorem trimming_idempotence :
  (∀ s, ∃ l r,
     s = l +:+ PyStr.strip s +:+ r
     ∧ PyStr.all_space PyStr.isspace l = true
     ∧ PyStr.all_space PyStr.isspace r = true
     ∧ PyStr.head_is PyStr.isspace (PyStr.strip s) = false
     ∧ PyStr.last_is PyStr.isspace (PyStr.strip s) = false)
  ∧ (∀ s, PyStr.strip (PyStr.strip s) = PyStr.strip s)
  ∧ (∀ self ref hyp w,
       let o := NLGEval_compute_individual_metrics self (RSeq ref) hyp w in
       ∃ refs hyps k,
         stored_trimmed [ref] [hyp] refs hyps
         ∧ k ≤ length (scorers self)
         ∧ (scorers self ≠ [] → 0 < k)
         ∧ (∀ rep, result o = inr rep → k = length (scorers self))
         ∧ trace o = calls_of (take k (scorers self)) refs hyps)
  ∧ (∀ self ref_list hyp_list w,
       length hyp_list = length (zip_star ref_list) →
       let o := NLGEval_compute_metrics self ref_list hyp_list w in
       ∃ refs hyps k,
         stored_trimmed (zip_star ref_list) hyp_list refs hyps
         ∧ k ≤ length (scorers self)
         ∧ (scorers self ≠ [] → 0 < k)
         ∧ (∀ rep, result o = inr rep → k = length (scorers self))
         ∧ trace o = calls_of (take k (scorers self)) refs hyps)
  ∧ (∀ ref hyp w,
       let o := compute_individual_metrics (RSeq ref) hyp w in
       ∃ refs hyps k,
         stored_trimmed [ref] [hyp] refs hyps
         ∧ k ≤ length legacy_descriptors
         ∧ 0 < k
         ∧ (∀ rep, result o = inr rep → k = length legacy_descriptors)
         ∧ calls (trace o)
           = (λ d, (d.1, refs, hyps)) <$> take k legacy_descriptors)
  ∧ (∀ hypothesis references hyp_list ref_list w,
       readlines hypothesis = Some hyp_list →
       Forall2 (λ path lines, readlines path = Some lines) references ref_list →
       length hyp_list = length (zip_star ref_list) →
       let o := compute_metrics hypothesis references w in
       ∃ refs hyps k,
         stored_trimmed (zip_star ref_list) hyp_list refs hyps
         ∧ k ≤ length legacy_descriptors
         ∧ 0 < k
         ∧ (∀ rep, result o = inr rep → k = length legacy_descriptors)
         ∧ calls (trace o)
           = (λ d, (d.1, refs, hyps)) <$> take k legacy_descriptors).
Proof.
  split; [|split; [|split; [|split; [|split]]]].
  - intros s. destruct (strip_with_spec PyStr.isspace s) as (l & r & Hs).
    exists l, r. exact Hs.
  - intros s. apply strip_with_idem.
  - intros self ref hyp w. cbn zeta.
    exists {[ 0 := PyStr.strip <$> ref ]}, {[ 0 := [PyStr.strip hyp] ]}.
    destruct (method_loop_pinned (scorers self) {[ 0 := PyStr.strip <$> ref ]}
                {[ 0 := [PyStr.strip hyp] ]} ∅ w) as (k & Hk).
    exists k. split; [apply stored_single|exact Hk].
  - intros self ref_list hyp_list w Hlen. cbn zeta.
    unfold NLGEval_compute_metrics.
    rewrite sizes_differ, bool_decide_eq_true_2, assert_true_bind by done.
    eexists _, _.
    destruct (method_loop_pinned (scorers self)
                (enumerate_dict ((λ refs : list string, _strip <$> refs)
                                   <$> zip_star ref_list))
                (enumerate_dict ((λ lines, [PyStr.strip lines]) <$> hyp_list))
                ∅ w) as (k & Hk).
    exists k. split; [apply stored_batch|exact Hk].
  - intros ref hyp w. cbn zeta.
    destruct (legacy_single_pinned (RSeq ref) hyp w) as (k & Hk).
    eexists _, _, k. split; [apply stored_single|exact Hk].
  - intros hypothesis references hyp_list ref_list w Hhyp Hrefs Hlen. cbn zeta.
    rewrite (compute_metrics_read _ _ hyp_list ref_list) by done.
    destruct (legacy_batch_pinned hyp_list ref_list w Hlen) as (k & Hk).
    eexists _, _, k. split; [apply stored_batch|exact Hk].
Qed.

End Passed.

Lemma trimming_idempotence_witness :
  let ref_list := [["the cat sat on the mat" +:+ nl; "a dog barked" +:+ nl;
                    "left over" +:+ nl];
                   ["a cat sat" +:+ nl; "the dog" +:+ nl]] in
  let hyp_list := [" the cat sat" +:+ nl; "a dog" +:+ nl] in
  let o := @compute_metrics steady "hyp.txt" ["ref1.txt"; "ref2.txt"] 0 in
  ∃ refs hyps k,
    stored_trimmed (zip_star ref_list) hyp_list refs hyps
    ∧ k ≤ length legacy_descriptors
    ∧ 0 < k
    ∧ (∀ rep, result o = inr rep → k = length legacy_descriptors)
    ∧ @calls steady (trace o)
      = (λ d, (d.1, refs, hyps)) <$> take k legacy_descriptors.
Proof.
  intros ref_list hyp_list.
  apply (proj2 (proj2 (proj2 (proj2 (proj2 (@trimming_idempotence steady)))))
           "hyp.txt" ["ref1.txt"; "ref2.txt"] hyp_list ref_list 0).
  - reflexivity.
  - repeat constructor.
  - reflexivity.
Defined.

Example trimmed_calls_example :
  @calls steady
    (trace (@compute_metrics steady "hyp.txt" ["ref1.txt"; "ref2.txt"] 0))
  = (λ d, (d.1,
           {[ 0 := ["the cat sat on the mat"; "a cat sat"];
              1 := ["a dog barked"; "the dog"] ]},
           {[ 0 := ["the cat sat"]; 1 := ["a dog"] ]}))
      <$> legacy_descriptors.
Proof. reflexivity. Qed.

(** ** Where a string is cut *)

Section Cuts.
Context `{Collaborators}.

Lemma strip_prefix_app p b : PyStr.strip_prefix p (p +:+ b) = Some b.
Proof.
  induction p as [|x p IH]; [done|].
  rewrite append_cons. simpl. by rewrite decide_True.
Qed.

Lemma strip_prefix_extend p t r u :
  PyStr.strip_prefix p t = Some r →
  PyStr.strip_prefix p (t +:+ u) = Some (r +:+ u).
Proof.
  revert t. induction p as [|x p IH]; intros t; simpl.
  - by intros [= ->].
  - destruct t as [|y t]; [done|]. rewrite append_cons.
    case_decide; [|done]. apply IH.
Qed.

Lemma strip_prefix_None_extend p t u :
  PyStr.strip_prefix p t = None →
  String.length p ≤ String.length t →
  PyStr.strip_prefix p (t +:+ u) = None.
Proof.
  revert t. induction p as [|x p IH]; intros t; simpl; [done|].
  destruct t as [|y t]; simpl; [lia|]. rewrite ?append_cons.
  case_decide; [|done]. intros Hp Hlen. apply IH; [done|lia].
Qed.

Lemma contains_cons sub c s :
  PyStr.contains sub (String c s) = false →
  PyStr.strip_prefix sub (String c s) = None ∧ PyStr.contains sub s = false.
Proof.
  simpl. destruct (PyStr.strip_prefix sub (String c s)); [done|]. by intros ?.
Qed.

(** The text up to the first occurrence of the separator is the first
    piece, and splitting goes on after that occurrence.  The occurrence
    that follows [a] is the first one when the separator does not occur in
    [a] followed by the separator short of its last character. *)
Lemma split_go_first sep0 c a b cur :
  PyStr.contains (sep0 +:+ String c EmptyString) (a +:+ sep0) = false →
  PyStr.split_go (sep0 +:+ String c EmptyString) 0 cur
    (a +:+ (sep0 +:+ String c EmptyString) +:+ b)
  = (cur +:+ a) :: PyStr.split_go (sep0 +:+ String c EmptyString) 0 EmptyString b.
Proof.
  set (sep := sep0 +:+ String c EmptyString).
  assert (∃ x p, sep = String x p) as (x & p & Hsep).
  { subst sep. destruct sep0; [by eexists _, _|]. rewrite append_cons. by eexists _, _. }
  assert (String.length sep = S (String.length sep0)) as Hlen.
  { subst sep. rewrite append_length. simpl. lia. }
  revert cur. induction a as [|y a IH]; intros cur Hno.
  - rewrite append_nil_l, append_nil_r.
    pose proof (strip_prefix_app sep b) as Hp.
    rewrite Hsep in Hp |- *. rewrite append_cons in Hp |- *.
    cbn [PyStr.split_go]. rewrite Hp.
    replace (String.length (String x p) - 1) with (String.length p)
      by (simpl; lia).
    by rewrite split_go_skip.
  - rewrite append_cons in Hno. apply contains_cons in Hno as [Hhere Hno].
    rewrite append_cons. cbn [PyStr.split_go].
    assert (PyStr.strip_prefix sep (String y (a +:+ sep +:+ b)) = None) as ->.
    { replace (String y (a +:+ sep +:+ b))
        with (String y (a +:+ sep0) +:+ (String c EmptyString +:+ b)).
      - apply strip_prefix_None_extend; [done|].
        simpl. rewrite append_length. lia.
      - subst sep. rewrite append_cons. f_equal. by rewrite !append_assoc. }
    rewrite IH by done. by rewrite append_assoc, append_cons.
Qed.

(** Every text that contains the separator has a first occurrence of it. *)
Lemma first_occurrence sep0 c s :
  PyStr.contains (sep0 +:+ String c EmptyString) sep0 = false →
  PyStr.contains (sep0 +:+ String c EmptyString) s = true →
  ∃ a b,
    s = a +:+ (sep0 +:+ String c EmptyString) +:+ b
    ∧ PyStr.contains (sep0 +:+ String c EmptyString) (a +:+ sep0) = false.
Proof.
  set (sep := sep0 +:+ String c EmptyString). intros Hshort.
  assert (∃ x p, sep = String x p) as (x & p & Hsep).
  { subst sep. destruct sep0; [by eexists _, _|]. rewrite append_cons. by eexists _, _. }
  induction s as [|y s IH]; intros Hs.
  - rewrite Hsep in Hs. done.
  - simpl in Hs.
    destruct (PyStr.strip_prefix sep (String y s)) as [b|] eqn:Hp.
    + exists EmptyString, b. split; [|by rewrite append_nil_l].
      rewrite append_nil_l. by apply strip_prefix_Some.
    + destruct (IH Hs) as (a & b & -> & Hno).
      exists (String y a), b. split; [by rewrite append_cons|].
      rewrite append_cons. simpl.
      destruct (PyStr.strip_prefix sep (String y (a +:+ sep0))) as [r|] eqn:Hq;
        [|done].
      apply (strip_prefix_extend _ _ _ (String c EmptyString +:+ b)) in Hq.
      rewrite append_cons in Hq.
      replace ((a +:+ sep0) +:+ String c EmptyString +:+ b)
        with (a +:+ sep +:+ b) in Hq
        by (subst sep; by rewrite !append_assoc).
      congruence.
Qed.

(** C9. A reference given as one string to the module-level single-pair
    function is split on the delimiter and each piece is trimmed: the
    scorers are called, and every call receives these trimmed pieces as the
    references of item 0.  The pieces are those of the delimiter: a string
    without the delimiter is one piece; a string cuts at the first
    occurrence of the delimiter into the text before it and the pieces of
    the text after it; every string with the delimiter has such a first
    occurrence; and joining the pieces with the delimiter gives the string
    back.  The method of the evaluator does not split: a string is iterated
    character by character. *)
Theorem string_reference_is_split :
  (∀ s hyp w,
     every_call
       (λ refs hyps, refs = {[ 0 := PyStr.strip <$> PyStr.split "||<|>||" s ]})
       (trace (compute_individual_metrics (RStr s) hyp w))
     ∧ EvCompute (Bleu 4)
         {[ 0 := PyStr.strip <$> PyStr.split "||<|>||" s ]}
         {[ 0 := [PyStr.strip hyp] ]}
       ∈ trace (compute_individual_metrics (RStr s) hyp w))
  ∧ (∀ s, PyStr.contains "||<|>||" s = false → PyStr.split "||<|>||" s = [s])
  ∧ (∀ a b,
       PyStr.contains "||<|>||" (a +:+ "||<|>|") = false →
       PyStr.split "||<|>||" (a +:+ "||<|>||" +:+ b)
       = a :: PyStr.split "||<|>||" b)
  ∧ (∀ s,
       PyStr.contains "||<|>||" s = true →
       ∃ a b, s = a +:+ "||<|>||" +:+ b
              ∧ PyStr.contains "||<|>||" (a +:+ "||<|>|") = false)
  ∧ (∀ s, PyStr.join "||<|>||" (PyStr.split "||<|>||" s) = s)
  ∧ (∀ self s hyp w,
       let o := NLGEval_compute_individual_metrics self (RStr s) hyp w in
       ∃ k, k ≤ length (scorers self)
            ∧ (scorers self ≠ [] → 0 < k)
            ∧ (∀ rep, result o = inr rep → k = length (scorers self))
            ∧ trace o
              = calls_of (take k (scorers self))
                  {[ 0 := PyStr.strip <$> PyStr.chars s ]}
                  {[ 0 := [PyStr.strip hyp] ]})
  ∧ PyStr.strip <$> PyStr.split "||<|>||" "a cat ||<|>|| the cat"
    ≠ PyStr.strip <$> PyStr.chars "a cat ||<|>|| the cat".
Proof.
  split; [|split; [|split; [|split; [|split; [|split]]]]].
  - intros s hyp w. split.
    + by apply every_call_single.
    + unfold compute_individual_metrics.
      erewrite bind_inr by reflexivity. unfold trace at 1. cbn [snd].
      apply elem_of_app. right.
      apply (first_call
               (λ scorer method ret_scores score,
                  bind (store method score ret_scores)
                    (λ ret_scores,
                       bind (if is_meteor scorer then call_close scorer else ret ())
                         (λ _, ret ret_scores)))).
  - intros s Hs. unfold PyStr.split. by rewrite split_go_no_sep.
  - intros a b Hno. unfold PyStr.split.
    exact (split_go_first "||<|>|" "|" a b EmptyString Hno).
  - intros s Hs. exact (first_occurrence "||<|>|" "|" s eq_refl Hs).
  - intros s. by apply join_split.
  - intros self s hyp w. apply method_loop_pinned.
  - by vm_compute.
Qed.

End Cuts.

Lemma string_reference_is_split_witness :
  PyStr.split "||<|>||" ("the cat sat on the mat" +:+ "||<|>||" +:+ "a cat sat")
  = ["the cat sat on the mat"; "a cat sat"].
Proof.
  rewrite (proj1 (proj2 (proj2 (@string_reference_is_split steady)))
             "the cat sat on the mat" "a cat sat" ltac:(reflexivity)).
  rewrite (proj1 (proj2 (@string_reference_is_split steady))
             "a cat sat" ltac:(reflexivity)).
  reflexivity.
Defined.

(** ** An empty reference sequence *)

Section NoReference.
Context `{Collaborators}.

Lemma method_single_no_assert self ref hyp :
  no_assertion_error (NLGEval_compute_individual_metrics self ref hyp).
Proof.
  unfold NLGEval_compute_individual_metrics.
  apply no_assert_for_each. intros [scorer method] r.
  apply no_assert_bind; [apply no_assert_call|]. intros score.
  apply no_assert_store.
Qed.

(** X11. An empty reference sequence is not rejected by single-pair
    evaluation: the call never raises the assertion error, the scorers are
    called in order with item 0 holding no reference, the first one at
    least and all of them when the call returns, which it does when the
    scorers honor the contract.  The batch method given no reference
    source and one hypothesis raises the assertion error with no call. *)
Theorem single_pair_without_reference self hyp w :
  NLGEval_compute_metrics self [] [hyp] w = (inl AssertionError, w, [])
  ∧ (let o := NLGEval_compute_individual_metrics self (RSeq []) hyp w in
     result o ≠ inl AssertionError
     ∧ ∃ k, k ≤ length (scorers self)
            ∧ (scorers self ≠ [] → 0 < k)
            ∧ (∀ rep, result o = inr rep → k = length (scorers self))
            ∧ trace o
              = calls_of (take k (scorers self))
                  {[ 0 := [] ]} {[ 0 := [PyStr.strip hyp] ]})
  ∧ (Forall honors_contract (scorers self) →
     ∃ rep w',
       NLGEval_compute_individual_metrics self (RSeq []) hyp w
       = (inr rep, w',
          calls_of (scorers self) {[ 0 := [] ]} {[ 0 := [PyStr.strip hyp] ]})).
Proof.
  split; [|split].
  - by apply NLGEval_compute_metrics_mismatch.
  - cbn zeta. split; [apply method_single_no_assert|].
    apply (method_loop_pinned (scorers self) {[ 0 := [] ]}
             {[ 0 := [PyStr.strip hyp] ]} ∅ w).
  - intros Hall.
    apply (method_loop_honored (scorers self) {[ 0 := [] ]}
             {[ 0 := [PyStr.strip hyp] ]} Hall ∅ w).
Qed.

End NoReference.

Lemma single_pair_without_reference_witness :
  let self := {| metrics_to_omit := list_to_set ["Bleu_3"; "METEOR"; "CIDEr"; "SPICE"];
                 scorers := [(Bleu 2, MList ["Bleu_1"; "Bleu_2"]);
                             (Rouge, MName "ROUGE_L")] |} in
  ∃ rep w',
    @NLGEval_compute_individual_metrics steady self (RSeq []) "the cat sat" 0
    = (inr rep, w',
       calls_of (scorers self) {[ 0 := [] ]} {[ 0 := ["the cat sat"] ]}).
Proof.
  intros self.
  apply (proj2 (proj2 (@single_pair_without_reference steady self "the cat sat" 0))).
  repeat constructor.
  - by apply steady_honors_contract.
  - intros refs hyps w. by eexists _, _.
Defined.
